(** * SecureBank: session lifecycle and account ledger

    A shallow embedding of [lib/session.ts], [lib/random.ts] and the account
    router ([createAccount], [fundAccount], [getTransactions]) over an
    explicit relational store, with the properties of the session manager
    and of the funding coordinator proved about it.

    Conventions of the embedding:
    - a table is the list of its rows, in insertion order;
    - an instant is a number of milliseconds since the epoch ([Z]); the
      ISO-8601 strings the store keeps order the same way as the instants
      they denote;
    - a currency amount is a number of minor units ([Z]);
    - [new Date()] is the argument [now] of the operation that reads it;
    - the secure random source is a tape of raw values with a cursor;
    - an operation returns its result together with the store it leaves;
      a thrown error is a value of [Result];
    - [db.transaction] is an atomic unit: the store of a unit in which a
      statement throws is the store before the unit. *)

From stdpp Require Import base numbers list strings sorting.
From Stdlib Require Import Sorting.Sorted Sorting.Permutation DecimalString.

Local Open Scope Z_scope.

(** ** Rows of the three tables *)

Module Session.
Record t : Type := mk {
  id : Z;
  userId : Z;
  token : string;
  createdAt : Z;
  expiresAt : Z
}.
End Session.

Inductive AccountType : Type := checking | savings.

Definition accountTypeName (ty : AccountType) : string :=
  match ty with checking => "checking"%string | savings => "savings"%string end.

#[global] Instance AccountType_eq_dec : EqDecision AccountType.
Proof. solve_decision. Defined.

Module Account.
Record t : Type := mk {
  id : Z;
  userId : Z;
  accountNumber : string;
  accountType : AccountType;
  balance : Z;
  status : string
}.
End Account.

Module Transaction.
Record t : Type := mk {
  id : Z;
  accountId : Z;
  type : string;
  amount : Z;
  description : string;
  status : string;
  createdAt : Z;
  processedAt : Z
}.
End Transaction.

(** ** The store *)

Record Db : Type := mkDb {
  accounts : list Account.t;
  transactions : list Transaction.t;
  sessions : list Session.t
}.

Definition emptyDb : Db := mkDb [] [] [].

Definition with_sessions (db : Db) (l : list Session.t) : Db :=
  mkDb (accounts db) (transactions db) l.

Definition with_accounts (db : Db) (l : list Account.t) : Db :=
  mkDb l (transactions db) (sessions db).

Definition with_transactions (db : Db) (l : list Transaction.t) : Db :=
  mkDb (accounts db) l (sessions db).

(** Modelled from the spec: the table declarations ([lib/db/schema]) are not
    part of the sources.  Row ids are the store's auto-increment keys, one
    more than the largest id of the table. *)
Definition nextId (ids : list Z) : Z := 1 + foldr Z.max 0 ids.

(** [db.select().from(t).where(P).get()]: the first matching row. *)
Definition selectGet {A} (P : A → Prop) `{!∀ x, Decision (P x)} (rows : list A) : option A :=
  head (filter P rows).

(** [db.delete(t).where(P)]: every matching row goes, the others stay in
    place. *)
Definition deleteWhere {A} (P : A → Prop) `{!∀ x, Decision (P x)} (rows : list A) : list A :=
  filter (λ x, ¬ P x) rows.

(** A stable sort by a comparison, for [ORDER BY] and for [Array.sort]. *)
Fixpoint insertSorted {A} (le : A → A → bool) (x : A) (l : list A) : list A :=
  match l with
  | [] => [x]
  | y :: l' => if le x y then x :: y :: l' else y :: insertSorted le x l'
  end.

Definition sortBy {A} (le : A → A → bool) (l : list A) : list A :=
  foldr (insertSorted le) [] l.

(** ** lib/session.ts *)

Module SESSION_CONFIG.
Definition MAX_SESSIONS_PER_USER : nat := 1.
Definition SESSION_EXPIRY_MS : Z := 7 * 24 * 60 * 60 * 1000.
Definition CLEANUP_INTERVAL_MS : Z := 60 * 60 * 1000.
End SESSION_CONFIG.

Definition byToken (token : string) (s : Session.t) : Prop := Session.token s = token.

#[global] Instance byToken_dec token s : Decision (byToken token s).
Proof. unfold byToken. apply _. Defined.

Definition deleteSessionsByToken (token : string) (db : Db) : Db :=
  with_sessions db (deleteWhere (byToken token) (sessions db)).

(** The loop of [enforceSessionLimit]: one delete by token per selected
    session, counting the iterations. *)
Definition deleteEach (sessionsToDelete : list Session.t) (db : Db) : nat * Db :=
  foldl (λ acc session, (S (fst acc), deleteSessionsByToken (Session.token session) (snd acc)))
        (0%nat, db) sessionsToDelete.

(** The comparator [(a, b) => time(a.createdAt) - time(b.createdAt)] of the
    sort in [enforceSessionLimit]: [a] stays before [b] when the difference
    is not positive. *)
Definition oldestFirst (a b : Session.t) : bool :=
  Z.leb (Session.createdAt a) (Session.createdAt b).

(** [userSessions] of [enforceSessionLimit]: the sessions of one owner. *)
Definition sessionsOf (userId : Z) (db : Db) : list Session.t :=
  filter (λ s, Session.userId s = userId) (sessions db).

(** [sessionsToDelete] of [enforceSessionLimit]: filter out [keepToken],
    sort by [createdAt], slice. *)
Definition sessionsToDelete (userId : Z) (keepToken : string) (db : Db) : list Session.t :=
  take (length (sessionsOf userId db) - SESSION_CONFIG.MAX_SESSIONS_PER_USER)%nat
       (sortBy oldestFirst
               (filter (λ s, Session.token s ≠ keepToken) (sessionsOf userId db))).

Definition enforceSessionLimit (userId : Z) (keepToken : string) (db : Db) : nat * Db :=
  let userSessions := sessionsOf userId db in
  if bool_decide (length userSessions ≤ SESSION_CONFIG.MAX_SESSIONS_PER_USER)%nat then
    (0%nat, db)
  else
    deleteEach (sessionsToDelete userId keepToken db) db.

Definition cleanupExpiredSessions (now : Z) (db : Db) : Z * Db :=
  (0, with_sessions db (deleteWhere (λ s, Session.expiresAt s ≤ now) (sessions db))).

Definition validateSessionToken (token : string) (now : Z) (db : Db) : option Session.t * Db :=
  match selectGet (byToken token) (sessions db) with
  | None => (None, db)
  | Some session =>
      if bool_decide (Session.expiresAt session ≤ now) then
        (None, deleteSessionsByToken token db)
      else (Some session, db)
  end.

Definition invalidateSession (token : string) (db : Db) : bool * Db :=
  match selectGet (byToken token) (sessions db) with
  | None => (false, db)
  | Some _ => (true, deleteSessionsByToken token db)
  end.

Definition getUserActiveSessions (userId : Z) (now : Z) (db : Db) : list Session.t :=
  filter (λ s, Session.userId s = userId ∧ now < Session.expiresAt s) (sessions db).

Module SessionInfo.
Record t : Type := mk {
  id : Z;
  userId : Z;
  createdAt : Z;
  expiresAt : Z;
  isExpired : bool
}.
End SessionInfo.

Definition getSessionInfo (token : string) (now : Z) (db : Db) : option SessionInfo.t :=
  match selectGet (byToken token) (sessions db) with
  | None => None
  | Some session =>
      Some (SessionInfo.mk (Session.id session) (Session.userId session)
              (Session.createdAt session) (Session.expiresAt session)
              (bool_decide (Session.expiresAt session < now)))
  end.

(** ** Failures *)

Inductive TRPCErrorCode : Type :=
  CONFLICT | INTERNAL_SERVER_ERROR | NOT_FOUND | BAD_REQUEST | UNAUTHORIZED.

(** What an operation can throw: a [TRPCError] of the router, a plain
    [Error] of the library code, the rejection of an input by the
    procedure's input schema, or a failure raised by a store statement. *)
Inductive Exn : Type :=
  | TRPCError (code : TRPCErrorCode) (message : string)
  | Error (message : string)
  | InputRejected
  | StoreFailure.

Inductive Result (A : Type) : Type :=
  | Ok (a : A)
  | Throw (e : Exn).
Arguments Ok {A} a.
Arguments Throw {A} e.

(** ** lib/random.ts *)

(** The secure source: an unbounded tape of raw values and the position of
    the next one. *)
Record Rng : Type := mkRng { tape : nat → Z; cursor : nat }.

(** [crypto.randomInt(min, max)]: a value in [min, max), the next raw value
    reduced to the range. *)
Definition randomInt (min max : Z) (g : Rng) : Z * Rng :=
  (min + tape g (cursor g) `mod` (max - min), mkRng (tape g) (S (cursor g))).

Definition secureRandomInt (min max : Z) (g : Rng) : Result (Z * Rng) :=
  if bool_decide (min > max) then Throw (Error "min must be less than or equal to max")
  else Ok (randomInt min (max + 1) g).

(** [result += n]: the decimal text of the number is appended. *)
Definition numberToString (n : Z) : string :=
  DecimalString.NilZero.string_of_int (Z.to_int n).

Fixpoint numericLoop (count : nat) (result : string) (g : Rng) : Result (string * Rng) :=
  match count with
  | O => Ok (result, g)
  | S count' =>
      match secureRandomInt 0 9 g with
      | Throw e => Throw e
      | Ok (d, g') => numericLoop count' (result +:+ numberToString d) g'
      end
  end.

Definition secureRandomNumeric (length : Z) (g : Rng) : Result (string * Rng) :=
  if bool_decide (length ≤ 0) then Throw (Error "length must be greater than 0")
  else numericLoop (Z.to_nat length) "" g.

Definition generateSecureAccountNumber (g : Rng) : Result (string * Rng) :=
  secureRandomNumeric 10 g.

(** ** The account router *)

Definition generateAccountNumber (g : Rng) : Result (string * Rng) :=
  generateSecureAccountNumber g.

(** The loop [while (!isUnique)] of [createAccount].  [None] stands for a
    loop that has not ended after [fuel] rounds. *)
Fixpoint pickAccountNumber (fuel : nat) (g : Rng) (db : Db) : option (Result (string * Rng)) :=
  match fuel with
  | O => None
  | S fuel' =>
      match generateAccountNumber g with
      | Throw e => Some (Throw e)
      | Ok (accountNumber, g') =>
          match selectGet (λ a, Account.accountNumber a = accountNumber) (accounts db) with
          | None => Some (Ok (accountNumber, g'))
          | Some _ => pickAccountNumber fuel' g' db
          end
      end
  end.

Definition insertAccount (userId : Z) (accountNumber : string) (accountType : AccountType)
    (balance : Z) (status : string) (db : Db) : Db :=
  with_accounts db
    (accounts db ++
     [Account.mk (nextId (Account.id <$> accounts db)) userId accountNumber accountType
        balance status]).

(** [createAccount] for the authenticated user [user] ([ctx.user.id]; the
    procedure is protected, so there is one).  [others] is what the other
    workers do to the store between the insert and the re-read; it is the
    identity when the request runs alone. *)
Definition createAccount (accountType : AccountType) (user : Z)
    (fuel : nat) (others : Db → Db) (g : Rng) (db : Db)
    : option (Result Account.t * Db * Rng) :=
  match selectGet (λ a, Account.userId a = user ∧ Account.accountType a = accountType)
                  (accounts db) with
  | Some _ =>
      Some (Throw (TRPCError CONFLICT
                     ("You already have a " +:+ accountTypeName accountType +:+ " account")),
            db, g)
  | None =>
      match pickAccountNumber fuel g db with
      | None => None
      | Some (Throw e) => Some (Throw e, db, g)
      | Some (Ok (accountNumber, g')) =>
          let db1 := insertAccount user accountNumber accountType 0 "active" db in
          let db2 := others db1 in
          match selectGet (λ a, Account.accountNumber a = accountNumber) (accounts db2) with
          | None =>
              Some (Throw (TRPCError INTERNAL_SERVER_ERROR "Failed to create account"), db2, g')
          | Some account => Some (Ok account, db2, g')
          end
      end
  end.

Inductive FundingType : Type := card | bank.

Definition fundingTypeName (ty : FundingType) : string :=
  match ty with card => "card"%string | bank => "bank"%string end.

Module FundingSource.
Record t : Type := mk {
  type : FundingType;
  accountNumber : string;
  routingNumber : option string
}.
End FundingSource.

Module FundInput.
Record t : Type := mk {
  accountId : Z;
  amount : Z;
  fundingSource : FundingSource.t
}.
End FundInput.

Module FundOutput.
Record t : Type := mk {
  transaction : option Transaction.t;
  newBalance : option Z
}.
End FundOutput.

(** *** Atomic units

    A statement of a unit either throws or returns a value and the next
    store; [dbTransaction] commits the store the body ends with, or keeps
    the store it started from when a statement threw. *)

Definition Tx (A : Type) : Type := Db → option (A * Db).

Definition txRet {A} (a : A) : Tx A := λ db, Some (a, db).

Definition txBind {A B} (m : Tx A) (k : A → Tx B) : Tx B :=
  λ db, match m db with
        | None => None
        | Some (a, db') => k a db'
        end.

Notation "x <-- m ;; k" := (txBind m (λ x, k))
  (at level 100, m at next level, right associativity).

Definition stmt {A} (fails : bool) (run : Db → A * Db) : Tx A :=
  λ db, if fails then None else Some (run db).

Definition dbTransaction {A} (body : Tx A) (db : Db) : Result A * Db :=
  match body db with
  | Some (a, db') => (Ok a, db')
  | None => (Throw StoreFailure, db)
  end.

(** The four statements of the funding unit, to say which of them fail. *)
Inductive FundStep : Type :=
  InsertTransaction | SelectTransaction | UpdateBalance | SelectAccount.

(** Modelled from the spec: [createdAt] is filled by the column default of
    the missing table declaration, the instant of the insert. *)
Definition insertTransaction (accountId : Z) (type : string) (amount : Z)
    (description status : string) (now : Z) (db : Db) : Db :=
  with_transactions db
    (transactions db ++
     [Transaction.mk (nextId (Transaction.id <$> transactions db)) accountId type amount
        description status now now]).

Definition newestFirst (a b : Transaction.t) : bool :=
  Z.leb (Transaction.createdAt b) (Transaction.createdAt a).

Definition addToBalance (accountId amount : Z) (a : Account.t) : Account.t :=
  if decide (Account.id a = accountId) then
    Account.mk (Account.id a) (Account.userId a) (Account.accountNumber a)
      (Account.accountType a) (Account.balance a + amount) (Account.status a)
  else a.

Definition fundUnit (input : FundInput.t) (amount now : Z) (fails : FundStep → bool)
    : Tx (option Transaction.t * option Account.t) :=
  _ <-- stmt (fails InsertTransaction) (λ db,
          (tt, insertTransaction (FundInput.accountId input) "deposit" amount
                 ("Funding from " +:+
                  fundingTypeName (FundingSource.type (FundInput.fundingSource input)))
                 "completed" now db)) ;;
  transaction <-- stmt (fails SelectTransaction) (λ db,
          (head (sortBy newestFirst
                   (filter (λ t, Transaction.accountId t = FundInput.accountId input)
                           (transactions db))), db)) ;;
  _ <-- stmt (fails UpdateBalance) (λ db,
          (tt, with_accounts db
                 (addToBalance (FundInput.accountId input) amount <$> accounts db))) ;;
  updatedAccount <-- stmt (fails SelectAccount) (λ db,
          (selectGet (λ a, Account.id a = FundInput.accountId input) (accounts db), db)) ;;
  txRet (transaction, updatedAccount).

Definition fundAccount (input : FundInput.t) (user : Z) (now : Z) (fails : FundStep → bool)
    (db : Db) : Result FundOutput.t * Db :=
  if bool_decide (FundInput.amount input ≤ 0) then (Throw InputRejected, db)
  else
    let amount := FundInput.amount input in
    match selectGet (λ a, Account.id a = FundInput.accountId input ∧ Account.userId a = user)
                    (accounts db) with
    | None => (Throw (TRPCError NOT_FOUND "Account not found"), db)
    | Some account =>
        if bool_decide (Account.status account ≠ "active") then
          (Throw (TRPCError BAD_REQUEST "Account is not active"), db)
        else
          match dbTransaction (fundUnit input amount now fails) db with
          | (Throw e, db') => (Throw e, db')
          | (Ok result, db') =>
              (Ok (FundOutput.mk (fst result) (Account.balance <$> snd result)), db')
          end
    end.

Module TransactionRow.
Record t : Type := mk {
  id : Z;
  accountId : Z;
  type : string;
  amount : Z;
  description : string;
  status : string;
  createdAt : Z;
  processedAt : Z;
  accountType : option AccountType
}.
End TransactionRow.

(** [transactions LEFT JOIN accounts ON transactions.accountId = accounts.id]:
    a transaction is paired with each account of that id, or with none. *)
Definition joinRows (accs : list Account.t) (t : Transaction.t)
    : list (Transaction.t * option Account.t) :=
  match filter (λ a, Transaction.accountId t = Account.id a) accs with
  | [] => [(t, None)]
  | matches => (λ a, (t, Some a)) <$> matches
  end.

Definition leftJoinAccounts (txs : list Transaction.t) (accs : list Account.t)
    : list (Transaction.t * option Account.t) :=
  concat (joinRows accs <$> txs).

Definition projectRow (r : Transaction.t * option Account.t) : TransactionRow.t :=
  let t := fst r in
  TransactionRow.mk (Transaction.id t) (Transaction.accountId t) (Transaction.type t)
    (Transaction.amount t) (Transaction.description t) (Transaction.status t)
    (Transaction.createdAt t) (Transaction.processedAt t)
    (Account.accountType <$> snd r).

Definition getTransactions (accountId : Z) (user : Z) (db : Db) : Result (list TransactionRow.t) :=
  match selectGet (λ a, Account.id a = accountId ∧ Account.userId a = user) (accounts db) with
  | None => Throw (TRPCError NOT_FOUND "Account not found")
  | Some _ =>
      Ok (projectRow <$>
            sortBy (λ r1 r2, newestFirst (fst r1) (fst r2))
              (filter (λ r, Transaction.accountId (fst r) = accountId)
                      (leftJoinAccounts (transactions db) (accounts db))))
  end.

(** Modelled from the spec: the session table declaration is not part of the
    sources; the token column is unique. *)
Definition uniqueTokens (db : Db) : Prop := NoDup (Session.token <$> sessions db).

(** The two readings of the expiry instant: [validateSessionToken] removes
    a session that [sessionExpired], [getUserActiveSessions] lists one that
    [sessionActive]. *)
Definition sessionExpired (now : Z) (s : Session.t) : Prop := Session.expiresAt s ≤ now.
Definition sessionActive (now : Z) (s : Session.t) : Prop := now < Session.expiresAt s.

#[global] Instance sessionExpired_dec now s : Decision (sessionExpired now s).
Proof. unfold sessionExpired. apply _. Defined.

#[global] Instance sessionActive_dec now s : Decision (sessionActive now s).
Proof. unfold sessionActive. apply _. Defined.

(** What [enforceSessionLimit] leaves aside: the sessions of the other
    owners, the sessions of the owner under [keepToken], and the candidates
    that the slice does not reach. *)
Definition otherSessions (userId : Z) (db : Db) : list Session.t :=
  filter (λ s, ¬ Session.userId s = userId) (sessions db).

Definition keptSessions (userId : Z) (keepToken : string) (db : Db) : list Session.t :=
  filter (λ s, ¬ Session.token s ≠ keepToken) (sessionsOf userId db).

Definition sparedSessions (userId : Z) (keepToken : string) (db : Db) : list Session.t :=
  drop (length (sessionsOf userId db) - SESSION_CONFIG.MAX_SESSIONS_PER_USER)%nat
       (sortBy oldestFirst
               (filter (λ s, Session.token s ≠ keepToken) (sessionsOf userId db))).

Definition survivesEviction (userId : Z) (keepToken : string) (db : Db) (s : Session.t) : Prop :=
  Session.token s ∉ Session.token <$> sessionsToDelete userId keepToken db.

#[global] Instance survivesEviction_dec userId keepToken db s :
  Decision (survivesEviction userId keepToken db s).
Proof. unfold survivesEviction. apply _. Defined.

(** The last clause of the session-limit contract, read for every
    [keepToken]: a session of the owner that is still active after the call
    is the one under [keepToken], unless the session under [keepToken] had
    already expired. *)
Definition survivorIsKept (userId : Z) (keepToken : string) (now : Z) (db : Db) : Prop :=
  ∀ s, s ∈ getUserActiveSessions userId now (snd (enforceSessionLimit userId keepToken db)) →
       Session.token s = keepToken ∨
       ∃ k, k ∈ sessions db ∧ Session.token k = keepToken ∧ sessionExpired now k.

(** ** The ledger *)

(** Modelled from the spec: the account table declaration is not part of the
    sources; [id] is its primary key. *)
Definition uniqueAccountIds (db : Db) : Prop := NoDup (Account.id <$> accounts db).

(** The row [fundAccount] inserts, and the store it commits. *)
Definition depositRow (input : FundInput.t) (now : Z) (db : Db) : Transaction.t :=
  Transaction.mk (nextId (Transaction.id <$> transactions db)) (FundInput.accountId input)
    "deposit" (FundInput.amount input)
    ("Funding from " +:+ fundingTypeName (FundingSource.type (FundInput.fundingSource input)))
    "completed" now now.

Definition funded (input : FundInput.t) (now : Z) (db : Db) : Db :=
  mkDb (addToBalance (FundInput.accountId input) (FundInput.amount input) <$> accounts db)
       (transactions db ++ [depositRow input now db])
       (sessions db).

(** The signed amount of a ledger entry: a deposit counts for its amount, an
    entry of another kind against it. *)
Definition signedAmount (t : Transaction.t) : Z :=
  if decide (Transaction.type t = "deposit") then Transaction.amount t
  else - Transaction.amount t.

Definition ledgerSum (accountId : Z) (db : Db) : Z :=
  foldr Z.add 0
    (signedAmount <$> filter (λ t, Transaction.accountId t = accountId) (transactions db)).

Definition balanced (db : Db) : Prop :=
  ∀ a, a ∈ accounts db → Account.balance a = ledgerSum (Account.id a) db.

(** Every ledger entry belongs to an account of the store. *)
Definition ledgerOwned (db : Db) : Prop :=
  ∀ t, t ∈ transactions db → Transaction.accountId t ∈ Account.id <$> accounts db.

(** The operations of the core on the ledger, with everything a call
    depends on: the caller, the clock, the secure source, the failures of
    the store. *)
Inductive Op : Type :=
  | OpCreateAccount (accountType : AccountType) (user : Z) (fuel : nat) (g : Rng)
  | OpFundAccount (input : FundInput.t) (user : Z) (now : Z) (fails : FundStep → bool).

(** The store after an operation that has returned, with a result or with
    an error; [None] when the operation has not returned. *)
Definition runOp (op : Op) (db : Db) : option Db :=
  match op with
  | OpCreateAccount accountType user fuel g =>
      match createAccount accountType user fuel id g db with
      | Some (_, db', _) => Some db'
      | None => None
      end
  | OpFundAccount input user now fails => Some (snd (fundAccount input user now fails db))
  end.

Fixpoint runOps (ops : list Op) (db : Db) : option Db :=
  match ops with
  | [] => Some db
  | op :: ops' =>
      match runOp op db with
      | Some db' => runOps ops' db'
      | None => None
      end
  end.

(** ** The format of account numbers

    The two regular expressions that [__tests__/random.test.ts] matches an
    account number against: [/^\d{10}$/] and [/^[1-9]\d{9}$/]. *)

Definition isDigit (c : Ascii.ascii) : bool :=
  (48 <=? Ascii.nat_of_ascii c)%nat && (Ascii.nat_of_ascii c <=? 57)%nat.

Definition isNonZeroDigit (c : Ascii.ascii) : bool :=
  (49 <=? Ascii.nat_of_ascii c)%nat && (Ascii.nat_of_ascii c <=? 57)%nat.

Definition allDigits (s : string) : bool := forallb isDigit (String.list_ascii_of_string s).

Definition tenDigits (s : string) : bool :=
  (String.length s =? 10)%nat && allDigits s.

Definition nonZeroThenNineDigits (s : string) : bool :=
  match s with
  | EmptyString => false
  | String c rest => isNonZeroDigit c && (String.length rest =? 9)%nat && allDigits rest
  end.

(** The secure source after [k] account numbers have been drawn from it. *)
Definition advance (k : nat) (g : Rng) : Rng := mkRng (tape g) (10 * k + cursor g).

(** ** Sample stores *)

Module Sample.
Definition t0 : Z := 1700000000000.
Definition T1 : Session.t := Session.mk 1 7 "T1" t0 (t0 + SESSION_CONFIG.SESSION_EXPIRY_MS).
Definition T2 : Session.t :=
  Session.mk 2 7 "T2" (t0 + 5000) (t0 + 5000 + SESSION_CONFIG.SESSION_EXPIRY_MS).
Definition T3 : Session.t := Session.mk 3 8 "T3" (t0 - 9000) (t0 + 1000).
Definition sessionsDb : Db := mkDb [] [] [T1; T2; T3].

Definition noFailure : FundStep → bool := λ _, false.
Definition failingUpdate : FundStep → bool :=
  λ st, match st with UpdateBalance => true | _ => false end.
Definition countingSource : Rng := mkRng (λ n, Z.of_nat n) 0.
Definition rowsLost : Db → Db := λ db, with_accounts db [].
Definition A1 : Account.t := Account.mk 1 7 "4821930576" checking 1000 "active".
Definition D1 : Transaction.t :=
  Transaction.mk 1 1 "deposit" 1000 "Funding from bank" "completed" (t0 - 500) (t0 - 500).
Definition ledgerDb : Db := mkDb [A1] [D1] [].
Definition fund500 : FundInput.t :=
  FundInput.mk 1 500 (FundingSource.mk card "4111111111111111" None).
Definition ledgerOps : list Op :=
  [OpCreateAccount checking 7 3 countingSource;
   OpFundAccount fund500 7 t0 noFailure;
   OpFundAccount fund500 7 (t0 + 60000) failingUpdate;
   OpCreateAccount checking 7 3 countingSource;
   OpFundAccount fund500 8 (t0 + 90000) noFailure].
Definition A1funded : Account.t := Account.mk 1 7 "0123456789" checking 500 "active".
Definition ledgerAfter : Db :=
  mkDb [A1funded]
       [Transaction.mk 1 1 "deposit" 500 "Funding from card" "completed" t0 t0]
       [].
End Sample.

(** * More of the code *)

(** ** lib/session.ts: [invalidateAllUserSessions] *)

(** [if (exceptToken)] on an optional string: [undefined] and the empty
    string are falsy. *)
Definition truthyString (s : option string) : option string :=
  match s with
  | Some t => if decide (t = ""%string) then None else Some t
  | None => None
  end.

(** The loop of [invalidateAllUserSessions]: a delete by token for every
    selected session whose token is not [exceptToken]. *)
Definition deleteAllBut (exceptToken : string) (existingSessions : list Session.t) (db : Db)
    : Db :=
  foldl (λ d session,
           if decide (Session.token session ≠ exceptToken)
           then deleteSessionsByToken (Session.token session) d
           else d)
        db existingSessions.

(** The delete that the first line of the function builds ([query]) is
    never awaited nor run: it has no effect. *)
Definition invalidateAllUserSessions (userId : Z) (exceptToken : option string) (db : Db)
    : nat * Db :=
  match truthyString exceptToken with
  | Some token =>
      let existingSessions := sessionsOf userId db in
      let db' := deleteAllBut token existingSessions db in
      (length (filter (λ s, Session.token s ≠ token) existingSessions), db')
  | None =>
      (0%nat,
       with_sessions db (deleteWhere (λ s, Session.userId s = userId) (sessions db)))
  end.

(** The operations of the session manager that write to the store. *)
Inductive SessionOp : Type :=
  | OpValidate (token : string) (now : Z)
  | OpInvalidate (token : string)
  | OpEnforceLimit (userId : Z) (keepToken : string)
  | OpCleanup (now : Z)
  | OpInvalidateAll (userId : Z) (exceptToken : option string).

Definition runSessionOp (db : Db) (op : SessionOp) : Db :=
  match op with
  | OpValidate token now => snd (validateSessionToken token now db)
  | OpInvalidate token => snd (invalidateSession token db)
  | OpEnforceLimit userId keepToken => snd (enforceSessionLimit userId keepToken db)
  | OpCleanup now => snd (cleanupExpiredSessions now db)
  | OpInvalidateAll userId exceptToken => snd (invalidateAllUserSessions userId exceptToken db)
  end.

(** ** lib/random.ts: hex strings *)

(** [crypto.randomBytes(n)]: [n] bytes, each the next raw value of the
    source reduced to a byte. *)
Fixpoint randomBytes (n : nat) (g : Rng) : list Z * Rng :=
  match n with
  | O => ([], g)
  | S n' =>
      let b := tape g (cursor g) `mod` 256 in
      let rest := randomBytes n' (mkRng (tape g) (S (cursor g))) in
      (b :: fst rest, snd rest)
  end.

Definition hexDigit (n : Z) : Ascii.ascii :=
  Ascii.ascii_of_nat (Z.to_nat (if bool_decide (n < 10) then 48 + n else 87 + n)).

(** [buffer.toString("hex")]: two lowercase hexadecimal digits per byte. *)
Fixpoint bufferToHex (bytes : list Z) : string :=
  match bytes with
  | [] => ""
  | b :: bytes' => String (hexDigit (b `div` 16)) (String (hexDigit (b `mod` 16)) (bufferToHex bytes'))
  end.

(** [s.slice(0, n)] for [n >= 0]. *)
Fixpoint sliceFromStart (n : nat) (s : string) : string :=
  match n, s with
  | S n', String c s' => String c (sliceFromStart n' s')
  | _, _ => ""
  end.

(** [Math.ceil(length / 2)] is [(length + 1) / 2] on integers. *)
Definition secureRandomHex (length : Z) (g : Rng) : Result (string * Rng) :=
  if bool_decide (length ≤ 0) then Throw (Error "length must be greater than 0")
  else
    let bytesNeeded := (length + 1) `div` 2 in
    let bytes := randomBytes (Z.to_nat bytesNeeded) g in
    Ok (sliceFromStart (Z.to_nat length) (bufferToHex (fst bytes)), snd bytes).

Definition generateSecureTransactionId (g : Rng) : Result (string * Rng) :=
  secureRandomHex 16 g.

Definition isHexDigit (c : Ascii.ascii) : bool :=
  isDigit c || ((97 <=? Ascii.nat_of_ascii c)%nat && (Ascii.nat_of_ascii c <=? 102)%nat).

Definition allHexDigits (s : string) : bool :=
  forallb isHexDigit (String.list_ascii_of_string s).

(** ** The account router: [getAccounts] *)

Definition getAccounts (user : Z) (db : Db) : list Account.t :=
  filter (λ a, Account.userId a = user) (accounts db).

(** What the router keeps true of the account table and of the ledger. *)
Definition uniqueAccountNumbers (db : Db) : Prop :=
  NoDup (Account.accountNumber <$> accounts db).

Definition oneAccountPerType (db : Db) : Prop :=
  NoDup ((λ a, (Account.userId a, Account.accountType a)) <$> accounts db).

Definition accountsWellFormed (db : Db) : Prop :=
  ∀ a, a ∈ accounts db →
       Account.status a = "active"%string ∧ 0 ≤ Account.balance a ∧
       tenDigits (Account.accountNumber a) = true.

Definition depositsOnly (db : Db) : Prop :=
  ∀ t, t ∈ transactions db →
       Transaction.type t = "deposit"%string ∧ Transaction.status t = "completed"%string ∧
       0 < Transaction.amount t.

(** The columns of an account row that no operation rewrites. *)
Definition accountIdentity (a : Account.t) : Z * Z * string * AccountType * string :=
  (Account.id a, Account.userId a, Account.accountNumber a, Account.accountType a,
   Account.status a).




(** A row of the join after the balance update of [fundAccount]: the same
    transaction, beside the updated account row. *)
Definition withBalanceAdded (accountId amount : Z) (r : Transaction.t * option Account.t)
    : Transaction.t * option Account.t :=
  (fst r, addToBalance accountId amount <$> snd r).

(** ** server/trpc.ts *)

(** Modelled from the spec: the user table declaration is not part of the
    sources; of a user row only [id] plays a part here. *)
Module User.
Record t : Type := mk {
  id : Z;
  email : string
}.
End User.

Definition semicolonChar : Ascii.ascii := Ascii.ascii_of_nat 59.
Definition spaceChar : Ascii.ascii := Ascii.ascii_of_nat 32.
Definition equalsChar : Ascii.ascii := Ascii.ascii_of_nat 61.

(** [s.split("; ")]: the pieces between the occurrences of the separator,
    found from the left. *)
Fixpoint splitSemicolonSpace (s : string) : list string :=
  match s with
  | EmptyString => [EmptyString]
  | String a s' =>
      match s' with
      | String b s'' =>
          if decide (a = semicolonChar ∧ b = spaceChar) then EmptyString :: splitSemicolonSpace s''
          else
            match splitSemicolonSpace s' with
            | piece :: pieces => String a piece :: pieces
            | [] => [String a EmptyString]
            end
      | EmptyString => [String a EmptyString]
      end
  end.

(** [s.split("=")]. *)
Fixpoint splitEquals (s : string) : list string :=
  match s with
  | EmptyString => [EmptyString]
  | String a s' =>
      if decide (a = equalsChar) then EmptyString :: splitEquals s'
      else
        match splitEquals s' with
        | piece :: pieces => String a piece :: pieces
        | [] => [String a EmptyString]
        end
  end.

(** [parts.join("=")]. *)
Fixpoint joinEquals (parts : list string) : string :=
  match parts with
  | [] => ""
  | [part] => part
  | part :: parts' => part +:+ "=" +:+ joinEquals parts'
  end.

(** [const [key, ...val] = c.split("="); return [key, val.join("=")]]. *)
Definition cookieEntry (c : string) : string * string :=
  match splitEquals c with
  | key :: val => (key, joinEquals val)
  | [] => (""%string, ""%string)
  end.

(** [Object.fromEntries(cookieHeader.split("; ").filter(Boolean).map(...))],
    as the list of its entries: a later entry overrides an earlier one of
    the same key. *)
Definition cookieEntries (cookieHeader : string) : list (string * string) :=
  cookieEntry <$> filter (λ c, c ≠ ""%string) (splitSemicolonSpace cookieHeader).

(** [cookiesObj[key]]: the value of the last entry of that key. *)
Definition cookieValue (key : string) (entries : list (string * string)) : option string :=
  last (snd <$> filter (λ e, fst e = key) entries).

Module Context.
Record t : Type := mk {
  user : option User.t;
  warned : bool
}.
End Context.

(** [createContext] on the cookie header of the request.  [jwtVerify] is
    [jwt.verify] with the configured secret: the [userId] of the payload,
    or nothing when it throws.  [now] is the clock read by
    [validateSessionToken], [later] the one read for the warning
    ([console.warn], kept as the flag [warned]). *)
Definition createContext (jwtVerify : string → option Z) (users : list User.t)
    (cookieHeader : string) (now later : Z) (db : Db) : Context.t * Db :=
  match truthyString (cookieValue "session" (cookieEntries cookieHeader)) with
  | None => (Context.mk None false, db)
  | Some token =>
      match jwtVerify token with
      | None => (Context.mk None false, db)
      | Some decodedUserId =>
          match validateSessionToken token now db with
          | (Some session, db') =>
              let expiresIn := Session.expiresAt session - later in
              (Context.mk (selectGet (λ u, User.id u = decodedUserId) users)
                          (bool_decide (expiresIn > 0 ∧ expiresIn < 300000)),
               db')
          | (None, db') => (Context.mk None false, db')
          end
      end
  end.

(** [protectedProcedure]: the middleware in front of every procedure of the
    account router. *)
Definition protectedProcedure {A} (ctx : Context.t) (next : User.t → A) : Result A :=
  match Context.user ctx with
  | None => Throw (TRPCError UNAUTHORIZED "UNAUTHORIZED")
  | Some user => Ok (next user)
  end.

(** A cookie header as a client writes it: [k1=v1; k2=v2; ...]. *)
Fixpoint writeCookies (cookies : list (string * string)) : string :=
  match cookies with
  | [] => ""
  | [(k, v)] => k +:+ "=" +:+ v
  | (k, v) :: cookies' => k +:+ "=" +:+ v +:+ "; " +:+ writeCookies cookies'
  end.

Fixpoint hasChar (c : Ascii.ascii) (s : string) : bool :=
  match s with
  | EmptyString => false
  | String a s' => if decide (a = c) then true else hasChar c s'
  end.

(** ** Validation utilities: the Luhn check

    In the functions below a string is the sequence of its code units, each
    below 256. *)

(** [parseInt(c, 10)] on a decimal digit. *)
Definition digitValue (c : Ascii.ascii) : Z := Z.of_nat (Ascii.nat_of_ascii c) - 48.

(** [s.replace(/\D/g, '')], as the list of the characters left. *)
Definition digitsOnly (s : string) : list Ascii.ascii :=
  filter (λ c, isDigit c = true) (String.list_ascii_of_string s).

(** One round of the loop of [luhnCheck], on [(sum, isEven)]. *)
Definition luhnStep (acc : Z * bool) (c : Ascii.ascii) : Z * bool :=
  let digit := digitValue c in
  let digit :=
    if snd acc then
      let doubled := digit * 2 in
      if bool_decide (doubled > 9) then doubled - 9 else doubled
    else digit in
  (fst acc + digit, negb (snd acc)).

(** The loop runs from the last digit to the first. *)
Definition luhnCheck (cardNumber : string) : bool :=
  let digits := digitsOnly cardNumber in
  bool_decide (fst (foldl luhnStep (0, false) (reverse digits)) `mod` 10 = 0).

(** ** Validation utilities: routing numbers *)

Module Validation.
Record t : Type := mk {
  isValid : bool;
  error : option string
}.
End Validation.

(** The white space of [\s] and of [trim()] among the code units below
    256: tab, line feed, vertical tab, form feed, carriage return, space
    and no-break space. *)
Definition isWhiteSpace (c : Ascii.ascii) : bool :=
  let n := Ascii.nat_of_ascii c in
  ((9 <=? n)%nat && (n <=? 13)%nat) || (n =? 32)%nat || (n =? 160)%nat.

Definition hyphenChar : Ascii.ascii := Ascii.ascii_of_nat 45.

Fixpoint dropWhiteSpace (l : list Ascii.ascii) : list Ascii.ascii :=
  match l with
  | c :: l' => if isWhiteSpace c then dropWhiteSpace l' else l
  | [] => []
  end.

(** [s.trim()], on the list of the characters. *)
Definition trimChars (l : list Ascii.ascii) : list Ascii.ascii :=
  reverse (dropWhiteSpace (reverse (dropWhiteSpace l))).

(** [s.replace(/[\s\-]/g, '')]. *)
Definition withoutSpacesAndHyphens (s : string) : list Ascii.ascii :=
  filter (λ c, isWhiteSpace c = false ∧ c ≠ hyphenChar) (String.list_ascii_of_string s).

Definition routingWeights : list Z := [3; 7; 1; 3; 7; 1; 3; 7; 1].

(** The loop [sum += parseInt(cleaned[i], 10) * weights[i]] over the nine
    positions. *)
Definition weightedSum (cleaned : list Ascii.ascii) (weights : list Z) : Z :=
  foldl (λ sum cw, sum + digitValue (fst cw) * snd cw) 0 (zip cleaned weights).

Definition validateRoutingNumber (routingNumber : string) : Validation.t :=
  if bool_decide (routingNumber = ""%string ∨
                  trimChars (String.list_ascii_of_string routingNumber) = []) then
    Validation.mk false (Some "Routing number is required"%string)
  else
    let cleaned := withoutSpacesAndHyphens routingNumber in
    if bool_decide (length cleaned ≠ 9%nat) then
      Validation.mk false (Some "Routing number must be exactly 9 digits"%string)
    else if negb (forallb isDigit cleaned) then
      Validation.mk false (Some "Routing number must contain only digits"%string)
    else if bool_decide (weightedSum cleaned routingWeights `mod` 10 ≠ 0) then
      Validation.mk false (Some "Invalid routing number (failed validation check)"%string)
    else Validation.mk true None.

(** [validateRoutingNumberForForm]: [true], or the error message. *)
Definition validateRoutingNumberForForm (value : string) : option string :=
  let result := validateRoutingNumber value in
  if Validation.isValid result then None
  else Some (default "Invalid routing number"%string (Validation.error result)).

(** ** lib/xss.ts *)

Definition ampChar : Ascii.ascii := Ascii.ascii_of_nat 38.
Definition ltChar : Ascii.ascii := Ascii.ascii_of_nat 60.
Definition gtChar : Ascii.ascii := Ascii.ascii_of_nat 62.
Definition quoteChar : Ascii.ascii := Ascii.ascii_of_nat 34.
Definition aposChar : Ascii.ascii := Ascii.ascii_of_nat 39.
Definition newlineChar : Ascii.ascii := Ascii.ascii_of_nat 10.

(** The replacement function of [escapeHtml]: [map[char]] on the five
    characters of the bracket expression, any other character unchanged. *)
Definition escapeChar (c : Ascii.ascii) : string :=
  if decide (c = ampChar) then "&amp;"
  else if decide (c = ltChar) then "&lt;"
  else if decide (c = gtChar) then "&gt;"
  else if decide (c = quoteChar) then "&quot;"
  else if decide (c = aposChar) then "&#039;"
  else String c EmptyString.

Fixpoint escapeString (s : string) : string :=
  match s with
  | EmptyString => EmptyString
  | String c s' => escapeChar c +:+ escapeString s'
  end.

(** [text == null] holds for [null] and [undefined]: no string. *)
Definition escapeHtml (text : option string) : string :=
  match text with
  | None => ""
  | Some t => escapeString t
  end.

(** [input.replace(/<[^>]*>/g, "")]: from a [<] that has a [>] somewhere
    after it, everything up to the first such [>] goes; a [<] with no [>]
    after it stays. *)
Fixpoint stripTagsFrom (inTag : bool) (s : string) : string :=
  match s with
  | EmptyString => EmptyString
  | String c s' =>
      if inTag then
        if decide (c = gtChar) then stripTagsFrom false s' else stripTagsFrom true s'
      else if decide (c = ltChar) then
        if hasChar gtChar s' then stripTagsFrom true s' else String c (stripTagsFrom false s')
      else String c (stripTagsFrom false s')
  end.

Definition sanitizeInput (input : option string) : string :=
  match input with
  | None => ""
  | Some i => escapeHtml (Some (stripTagsFrom false i))
  end.

(** [s.replace(/\n/g, "<br />")]. *)
Fixpoint breakLines (s : string) : string :=
  match s with
  | EmptyString => EmptyString
  | String c s' =>
      if decide (c = newlineChar) then "<br />" +:+ breakLines s' else String c (breakLines s')
  end.

Definition safenizeText (text : option string) : string :=
  breakLines (escapeHtml text).

(** The characters that [escapeHtml] replaces, but for [&]. *)
Definition isMarkupChar (c : Ascii.ascii) : bool :=
  bool_decide (c = ltChar ∨ c = gtChar ∨ c = quoteChar ∨ c = aposChar).

Fixpoint hasMarkupChar (s : string) : bool :=
  match s with
  | EmptyString => false
  | String c s' => isMarkupChar c || hasMarkupChar s'
  end.

(** ** lib/crypto.ts: [maskSSN] *)

(** [ssn.slice(-4)]: the last four characters, or fewer when there are
    fewer. *)
Definition lastFour (ssn : string) : string :=
  String.string_of_list_ascii
    (drop (String.length ssn - 4) (String.list_ascii_of_string ssn)).

(** [/^\d{9}$/.test(ssn)]. *)
Definition nineDigits (ssn : string) : bool :=
  (String.length ssn =? 9)%nat && allDigits ssn.

Definition maskSSN (ssn : string) : string :=
  if negb (bool_decide (ssn ≠ ""%string)) || negb (nineDigits ssn) then "XXX-XX-XXXX"
  else "XXX-XX-" +:+ lastFour ssn.

(** How many times a character occurs in a string. *)
Fixpoint countChar (c : Ascii.ascii) (s : string) : nat :=
  match s with
  | EmptyString => 0%nat
  | String a s' => ((if decide (a = c) then 1 else 0) + countChar c s')%nat
  end.

(** ** Password validators *)

Definition COMMON_WEAK_PASSWORDS : list string :=
  ["password"; "12345678"; "qwerty"; "abc123"; "letmein"; "welcome"; "monkey"; "dragon";
   "master"; "sunshine"; "princess"; "1234567"; "solo"; "starwars"; "shadow"; "michael";
   "superman"; "batman"; "iloveyou"; "trustno1"; "admin"; "root"; "pass"; "test";
   "123456"; "12345"; "654321"; "asdfgh"; "zxcvbn"; "qazwsx"; "password123";
   "111111"]%string.

Inductive Strength := weak | fair | good | strong.

Module PasswordStrength.
Record t := mk {
  isValid : bool;
  strength : Strength;
  score : Z;
  feedback : list string
}.
End PasswordStrength.

Module PasswordResult.
Record t := mk {
  isValid : bool;
  strength : option Strength;
  error : option string;
  feedback : option (list string)
}.
End PasswordResult.

Definition charBetween (lo hi : nat) (c : Ascii.ascii) : bool :=
  (lo <=? Ascii.nat_of_ascii c)%nat && (Ascii.nat_of_ascii c <=? hi)%nat.

(** [/[...]/.test(s)] for a class of single characters. *)
Definition testAny (class : Ascii.ascii → bool) (s : string) : bool :=
  existsb class (String.list_ascii_of_string s).

Definition isLowercase : Ascii.ascii → bool := charBetween 97 122.
Definition isUppercase : Ascii.ascii → bool := charBetween 65 90.

(** The characters of the bracket expression for special characters, in
    the order of the source. *)
Definition specialChars : string :=
  "!@#$%^&*()_+-=[]{};:'" +:+ String quoteChar ",.<>?/\|`~".

Definition isSpecial (c : Ascii.ascii) : bool := hasChar c specialChars.

(** [new Set(password).size]. *)
Definition uniqueChars (password : string) : nat :=
  length (remove_dups (String.list_ascii_of_string password)).

(** One [if (...) score += 10; else feedback.push(...)]. *)
Definition scoreOrFeedback (test : bool) (message : string)
    (state : Z * list string) : Z * list string :=
  if test then (fst state + 10, snd state) else (fst state, snd state ++ [message]).

(** [uniqueChars >= password.length * 0.75] is compared on the integers,
    multiplied by four. *)
Definition calculatePasswordStrength (password : string) : PasswordStrength.t :=
  let len := Z.of_nat (String.length password) in
  let score := 0 in
  let score := if 8 <=? len then score + 10 else score in
  let score := if 12 <=? len then score + 10 else score in
  let score := if 16 <=? len then score + 10 else score in
  let state := (score, []) in
  let state := scoreOrFeedback (testAny isLowercase password) "Add lowercase letters" state in
  let state := scoreOrFeedback (testAny isUppercase password) "Add uppercase letters" state in
  let state := scoreOrFeedback (testAny isDigit password) "Add numbers" state in
  let state := scoreOrFeedback (testAny isSpecial password) "Add special characters" state in
  let state :=
    scoreOrFeedback (3 * len <=? 4 * Z.of_nat (uniqueChars password))
      "Use more diverse characters" state in
  let score := fst state in
  let strength :=
    if score <? 40 then weak
    else if score <? 60 then fair
    else if score <? 80 then good
    else strong in
  PasswordStrength.mk (50 <=? score) strength score (snd state).

(** [toLowerCase] on one character: the capital letters of ASCII and of
    Latin-1 have their small letter 32 places further. *)
Definition toLowerChar (c : Ascii.ascii) : Ascii.ascii :=
  if charBetween 65 90 c || charBetween 192 214 c || charBetween 216 222 c
  then Ascii.ascii_of_nat (Ascii.nat_of_ascii c + 32)
  else c.

Fixpoint toLowerCase (s : string) : string :=
  match s with
  | EmptyString => EmptyString
  | String c s' => String (toLowerChar c) (toLowerCase s')
  end.

(** [s.includes(pattern)]. *)
Fixpoint includes (s pattern : string) : bool :=
  String.prefix pattern s ||
  match s with
  | EmptyString => false
  | String _ s' => includes s' pattern
  end.

Definition sequencePatterns : list string :=
  ["abc"; "bcd"; "cde"; "def"; "efg"; "fgh"; "ghi"; "hij"; "ijk"; "jkl"; "klm"; "lmn";
   "mno"; "nop"; "opq"; "pqr"; "qrs"; "rst"; "stu"; "tuv"; "uvw"; "vwx"; "wxy"; "xyz";
   "123"; "234"; "345"; "456"; "567"; "678"; "789"; "890";
   "qwerty"; "asdf"; "zxcv"]%string.

Definition isLineTerminator (c : Ascii.ascii) : bool :=
  bool_decide (c = newlineChar ∨ c = Ascii.ascii_of_nat 13).

(** [/(.)\1{2,}/.test(s)]: a character that is no line terminator, three
    times in a row. *)
Fixpoint hasTripledChar (l : list Ascii.ascii) : bool :=
  match l with
  | a :: l' =>
      match l' with
      | b :: c :: _ =>
          (negb (isLineTerminator a) && bool_decide (a = b) && bool_decide (b = c))
          || hasTripledChar l'
      | _ => false
      end
  | [] => false
  end.

Definition passwordRefused (message : string) : PasswordResult.t :=
  PasswordResult.mk false None (Some message) None.

Definition validatePassword (password : string) : PasswordResult.t :=
  if bool_decide (password = ""%string ∨ trimChars (String.list_ascii_of_string password) = [])
  then passwordRefused "Password is required"
  else if (String.length password <? 8)%nat
  then passwordRefused "Password must be at least 8 characters long"
  else if (128 <? String.length password)%nat
  then passwordRefused "Password must not exceed 128 characters"
  else if bool_decide (toLowerCase password ∈ COMMON_WEAK_PASSWORDS)
  then passwordRefused "Password is too common. Choose a more unique password"
  else
    let hasUppercase := testAny isUppercase password in
    let hasLowercase := testAny isLowercase password in
    let hasDigit := testAny isDigit password in
    let hasSpecial := testAny isSpecial password in
    let typeCount :=
      length (filter (λ b, b = true) [hasUppercase; hasLowercase; hasDigit; hasSpecial]) in
    if (typeCount <? 3)%nat
    then passwordRefused
           "Password must contain at least 3 of: uppercase letters, lowercase letters, numbers, special characters"
    else if existsb (includes (toLowerCase password)) sequencePatterns
    then passwordRefused
           "Password contains sequential characters. Avoid patterns like abc, 123, or qwerty"
    else if hasTripledChar (String.list_ascii_of_string password)
    then passwordRefused
           "Password cannot contain the same character more than twice in a row"
    else
      let strengthResult := calculatePasswordStrength password in
      PasswordResult.mk (PasswordStrength.isValid strengthResult)
        (Some (PasswordStrength.strength strengthResult)) None
        (Some (PasswordStrength.feedback strengthResult)).

(** [validatePasswordForForm]: [true], or the message. *)
Definition validatePasswordForForm (password : string) : option string :=
  let result := validatePassword password in
  if PasswordResult.isValid result then None
  else Some (match PasswordResult.error result with
             | Some e => if bool_decide (e = ""%string)
                         then "Password does not meet requirements"%string else e
             | None => "Password does not meet requirements"%string
             end).

(** * Properties *)

(** ** Facts about the store primitives *)

Section Select.
Context {A : Type} (P : A → Prop) `{!∀ x, Decision (P x)}.

Lemma selectGet_None (rows : list A) :
  selectGet P rows = None ↔ ∀ x, x ∈ rows → ¬ P x.
Proof.
  unfold selectGet. rewrite head_None. split.
  - intros Hnil x Hx HP. eapply filter_nil_not_elem_of; eauto.
  - intros Hno. induction rows as [|y rows IH]; [done|].
    rewrite filter_cons_False.
    + apply IH. intros x Hx. apply Hno. by right.
    + apply Hno. by left.
Qed.

Lemma selectGet_Some (rows : list A) (x : A) :
  selectGet P rows = Some x → x ∈ rows ∧ P x.
Proof.
  unfold selectGet. intros Hhd. apply head_Some_elem_of in Hhd.
  apply list_elem_of_filter in Hhd. tauto.
Qed.

Lemma selectGet_is_Some (rows : list A) :
  (∃ x, x ∈ rows ∧ P x) → is_Some (selectGet P rows).
Proof.
  intros (x & Hx & HP). destruct (selectGet P rows) eqn:E; [by eexists|].
  exfalso. rewrite selectGet_None in E. by eapply E.
Qed.

Lemma elem_of_deleteWhere (rows : list A) (x : A) :
  x ∈ deleteWhere P rows ↔ x ∈ rows ∧ ¬ P x.
Proof. unfold deleteWhere. rewrite list_elem_of_filter. tauto. Qed.

Lemma deleteWhere_nothing (rows : list A) :
  (∀ x, x ∈ rows → ¬ P x) → deleteWhere P rows = rows.
Proof.
  unfold deleteWhere. induction rows as [|y rows IH]; intros Hno; [done|].
  rewrite filter_cons_True by (apply Hno; by left).
  f_equal. apply IH. intros x Hx. apply Hno. by right.
Qed.

Lemma deleteWhere_twice (rows : list A) :
  deleteWhere P (deleteWhere P rows) = deleteWhere P rows.
Proof.
  apply deleteWhere_nothing. intros x Hx. by apply elem_of_deleteWhere in Hx as [_ ?].
Qed.
End Select.

(** A key column: no two rows of the table agree on it. *)
Lemma key_column_inj {A K} (key : A → K) (rows : list A) (x y : A) :
  NoDup (key <$> rows) → x ∈ rows → y ∈ rows → key x = key y → x = y.
Proof.
  induction rows as [|z rows IH]; intros Hnd Hx Hy Hk; [by apply elem_of_nil in Hx|].
  rewrite fmap_cons in Hnd. apply NoDup_cons in Hnd as [Hz Hnd].
  apply elem_of_cons in Hx as [->|Hx]; apply elem_of_cons in Hy as [->|Hy]; auto.
  - exfalso. apply Hz. rewrite Hk. by apply list_elem_of_fmap_2.
  - exfalso. apply Hz. rewrite <- Hk. by apply list_elem_of_fmap_2.
Qed.

Lemma selectGet_byToken (db : Db) (s : Session.t) :
  uniqueTokens db → s ∈ sessions db →
  selectGet (byToken (Session.token s)) (sessions db) = Some s.
Proof.
  intros Hu Hs.
  destruct (selectGet_is_Some (byToken (Session.token s)) (sessions db)) as [s' E].
  { exists s. by split. }
  rewrite E. f_equal. apply selectGet_Some in E as [Hs' Ht].
  by apply (key_column_inj Session.token (sessions db)).
Qed.

Lemma elem_of_deleteSessionsByToken (token : string) (db : Db) (s : Session.t) :
  s ∈ sessions (deleteSessionsByToken token db) ↔ s ∈ sessions db ∧ Session.token s ≠ token.
Proof. unfold deleteSessionsByToken. simpl. apply (elem_of_deleteWhere (byToken token)). Qed.

(** ** Logout *)

(** C9. [invalidateSession] returns [false] and leaves the store alone when
    no session has the token; when one has, it returns [true], removes the
    sessions of that token and no other row, and a second call on the
    resulting store returns [false] and changes nothing.  The operation has
    no failure of its own: its result is a boolean. *)
Theorem invalidateSession_idempotent (token : string) (db : Db) :
  ((∀ s, s ∈ sessions db → Session.token s ≠ token) →
     invalidateSession token db = (false, db)) ∧
  ((∃ s, s ∈ sessions db ∧ Session.token s = token) →
     ∃ db', invalidateSession token db = (true, db') ∧
       (∀ s, s ∈ sessions db' ↔ s ∈ sessions db ∧ Session.token s ≠ token) ∧
       accounts db' = accounts db ∧ transactions db' = transactions db ∧
       invalidateSession token db' = (false, db')).
Proof.
  unfold invalidateSession. split.
  - intros Hno.
    assert (selectGet (byToken token) (sessions db) = None) as ->; [|done].
    apply selectGet_None. exact Hno.
  - intros Hex.
    destruct (selectGet_is_Some (byToken token) (sessions db) Hex) as [s0 ->].
    exists (deleteSessionsByToken token db).
    split; [done|]. split; [intros s; apply elem_of_deleteSessionsByToken|].
    split; [done|]. split; [done|].
    assert (selectGet (byToken token) (sessions (deleteSessionsByToken token db)) = None)
      as ->; [|done].
    apply selectGet_None. intros s Hs. by apply elem_of_deleteSessionsByToken in Hs as [_ ?].
Qed.

Lemma invalidateSession_idempotent_witness :
  ∃ db', invalidateSession "T1" Sample.sessionsDb = (true, db') ∧
    (∀ s, s ∈ sessions db' ↔ s ∈ sessions Sample.sessionsDb ∧ Session.token s ≠ "T1"%string) ∧
    accounts db' = accounts Sample.sessionsDb ∧
    transactions db' = transactions Sample.sessionsDb ∧
    invalidateSession "T1" db' = (false, db').
Proof.
  apply (proj2 (invalidateSession_idempotent "T1" Sample.sessionsDb)).
  exists Sample.T1. split; [by left | reflexivity].
Defined.

(** ** Expiry *)

Lemma sessionActive_not_expired (now : Z) (s : Session.t) :
  sessionActive now s ↔ ¬ sessionExpired now s.
Proof. unfold sessionActive, sessionExpired. lia. Qed.

Lemma validateSessionToken_live (db : Db) (now : Z) (s : Session.t) :
  uniqueTokens db → s ∈ sessions db → now < Session.expiresAt s →
  validateSessionToken (Session.token s) now db = (Some s, db).
Proof.
  intros Hu Hs Hlt. unfold validateSessionToken.
  rewrite (selectGet_byToken db s Hu Hs).
  rewrite bool_decide_eq_false_2; [done | lia].
Qed.

Lemma validateSessionToken_expired (db : Db) (now : Z) (s : Session.t) :
  uniqueTokens db → s ∈ sessions db → Session.expiresAt s ≤ now →
  validateSessionToken (Session.token s) now db
    = (None, deleteSessionsByToken (Session.token s) db).
Proof.
  intros Hu Hs Hle. unfold validateSessionToken.
  rewrite (selectGet_byToken db s Hu Hs).
  by rewrite bool_decide_eq_true_2.
Qed.

Lemma validateSessionToken_missing (db : Db) (now : Z) (token : string) :
  (∀ s, s ∈ sessions db → Session.token s ≠ token) →
  validateSessionToken token now db = (None, db).
Proof.
  intros Hno. unfold validateSessionToken.
  assert (selectGet (byToken token) (sessions db) = None) as ->; [|done].
  by apply selectGet_None.
Qed.

Lemma validateSessionToken_Some (db : Db) (now : Z) (token : string) (s : Session.t) :
  fst (validateSessionToken token now db) = Some s →
  s ∈ sessions db ∧ Session.token s = token ∧ now < Session.expiresAt s.
Proof.
  unfold validateSessionToken.
  destruct (selectGet (byToken token) (sessions db)) as [s'|] eqn:E; [|done].
  case_bool_decide as Hexp; simpl; [done|].
  intros [= ->]. apply selectGet_Some in E as [? ?]. split; [done|]. split; [done|lia].
Qed.

(** C3. In a store whose tokens are unique, [validateSessionToken] on the
    token of a stored session returns that session when [now < expiresAt]
    and leaves the store alone; when [now >= expiresAt] it returns nothing
    and deletes the record; on a token that no session has it returns
    nothing.  [getUserActiveSessions] lists exactly the owner's sessions with
    [expiresAt > now], which are exactly the owner's sessions that
    [validateSessionToken] accepts at that instant, so that being listed and
    being expired exclude each other.  A session that expires seven days
    after [t0] is rejected at [t0 + 7d] and accepted one millisecond
    before. *)
Theorem validate_and_listActive_agree (db : Db) :
  uniqueTokens db →
  (∀ now s, s ∈ sessions db →
     (now < Session.expiresAt s →
        validateSessionToken (Session.token s) now db = (Some s, db)) ∧
     (Session.expiresAt s ≤ now →
        validateSessionToken (Session.token s) now db
          = (None, deleteSessionsByToken (Session.token s) db) ∧
        s ∉ sessions (deleteSessionsByToken (Session.token s) db))) ∧
  (∀ now token,
     fst (validateSessionToken token now db) = None ↔
       (∀ s, s ∈ sessions db → Session.token s ≠ token) ∨
       (∃ s, s ∈ sessions db ∧ Session.token s = token ∧ Session.expiresAt s ≤ now)) ∧
  (∀ now userId s,
     s ∈ getUserActiveSessions userId now db ↔
       s ∈ sessions db ∧ Session.userId s = userId ∧ Session.expiresAt s > now) ∧
  (∀ now userId s,
     s ∈ getUserActiveSessions userId now db ↔
       s ∈ sessions db ∧ Session.userId s = userId ∧
       fst (validateSessionToken (Session.token s) now db) = Some s) ∧
  (∀ now userId s,
     s ∈ getUserActiveSessions userId now db → ¬ sessionExpired now s) ∧
  (∀ t0 s, s ∈ sessions db →
     Session.expiresAt s = t0 + 7 * 24 * 60 * 60 * 1000 →
     fst (validateSessionToken (Session.token s) (t0 + 7 * 24 * 60 * 60 * 1000) db) = None ∧
     fst (validateSessionToken (Session.token s) (t0 + 7 * 24 * 60 * 60 * 1000 - 1) db)
       = Some s).
Proof.
  intros Hu.
  assert (Hlist : ∀ now userId s,
     s ∈ getUserActiveSessions userId now db ↔
       s ∈ sessions db ∧ Session.userId s = userId ∧ Session.expiresAt s > now).
  { intros now userId s. unfold getUserActiveSessions.
    rewrite list_elem_of_filter. intuition lia. }
  split; [|split; [|split; [|split; [|split]]]].
  - intros now s Hs. split.
    + by apply validateSessionToken_live.
    + intros Hle. split; [by apply validateSessionToken_expired|].
      intros Hin. by apply elem_of_deleteSessionsByToken in Hin as [_ ?].
  - intros now token. split.
    + intros Hnone.
      destruct (selectGet (byToken token) (sessions db)) as [s|] eqn:E.
      * right. exists s. pose proof (selectGet_Some _ _ _ E) as [Hs Ht].
        split; [done|]. split; [done|].
        destruct (decide (Session.expiresAt s ≤ now)) as [|Hgt]; [done|].
        unfold byToken in Ht. subst token.
        rewrite validateSessionToken_live in Hnone; [done..|lia].
      * left. by apply (selectGet_None (byToken token)).
    + intros [Hno|(s & Hs & <- & Hle)].
      * by rewrite validateSessionToken_missing.
      * by rewrite validateSessionToken_expired.
  - exact Hlist.
  - intros now userId s. rewrite Hlist. split.
    + intros (Hs & Ho & Hgt). split; [done|]. split; [done|].
      rewrite validateSessionToken_live; [done..|lia].
    + intros (Hs & Ho & Hv). apply validateSessionToken_Some in Hv as (_ & _ & ?).
      split; [done|]. split; [done|lia].
  - intros now userId s [_ [_ Hgt]]%Hlist. unfold sessionExpired. lia.
  - intros t0 s Hs Hexp. split.
    + rewrite validateSessionToken_expired; [done..|lia].
    + rewrite validateSessionToken_live; [done..|lia].
Qed.

Lemma sample_uniqueTokens : uniqueTokens Sample.sessionsDb.
Proof.
  unfold uniqueTokens. apply (bool_decide_unpack _). by vm_compute.
Qed.

Lemma validate_and_listActive_agree_witness :
  fst (validateSessionToken "T1" (Sample.t0 + 7 * 24 * 60 * 60 * 1000) Sample.sessionsDb) = None ∧
  fst (validateSessionToken "T1" (Sample.t0 + 7 * 24 * 60 * 60 * 1000 - 1) Sample.sessionsDb)
    = Some Sample.T1.
Proof.
  apply (proj2 (proj2 (proj2 (proj2 (proj2
           (validate_and_listActive_agree Sample.sessionsDb sample_uniqueTokens)))))
         Sample.t0 Sample.T1).
  - by left.
  - reflexivity.
Defined.

(** C10. [getSessionInfo] computes [isExpired] with the strict comparison
    [expiresAt < now].  For a stored session read at the instant
    [now = expiresAt] it answers with [isExpired = false], while
    [validateSessionToken] at the same instant returns nothing and deletes
    the record. *)
Theorem getSessionInfo_disagrees_at_expiry (db : Db) (s : Session.t) :
  uniqueTokens db → s ∈ sessions db →
  (∀ now, getSessionInfo (Session.token s) now db =
     Some (SessionInfo.mk (Session.id s) (Session.userId s) (Session.createdAt s)
             (Session.expiresAt s) (bool_decide (Session.expiresAt s < now)))) ∧
  (∃ info, getSessionInfo (Session.token s) (Session.expiresAt s) db = Some info ∧
           SessionInfo.isExpired info = false) ∧
  validateSessionToken (Session.token s) (Session.expiresAt s) db
    = (None, deleteSessionsByToken (Session.token s) db) ∧
  s ∉ sessions (deleteSessionsByToken (Session.token s) db).
Proof.
  intros Hu Hs.
  assert (Hinfo : ∀ now, getSessionInfo (Session.token s) now db =
     Some (SessionInfo.mk (Session.id s) (Session.userId s) (Session.createdAt s)
             (Session.expiresAt s) (bool_decide (Session.expiresAt s < now)))).
  { intros now. unfold getSessionInfo. by rewrite (selectGet_byToken db s Hu Hs). }
  split; [exact Hinfo|]. split; [|split].
  - eexists. split; [apply Hinfo|]. simpl. apply bool_decide_eq_false_2. lia.
  - apply validateSessionToken_expired; [done..|lia].
  - intros Hin. by apply elem_of_deleteSessionsByToken in Hin as [_ ?].
Qed.

Lemma getSessionInfo_disagrees_at_expiry_witness :
  (∃ info, getSessionInfo "T3" (Sample.t0 + 1000) Sample.sessionsDb = Some info ∧
           SessionInfo.isExpired info = false) ∧
  validateSessionToken "T3" (Sample.t0 + 1000) Sample.sessionsDb
    = (None, deleteSessionsByToken "T3" Sample.sessionsDb).
Proof.
  pose proof (getSessionInfo_disagrees_at_expiry Sample.sessionsDb Sample.T3
                sample_uniqueTokens) as H.
  destruct H as (_ & Hinfo & Hval & _).
  - right. right. left.
  - split; [exact Hinfo | exact Hval].
Defined.

(** ** The sweep *)

Lemma cleanupExpiredSessions_removes (now : Z) (db : Db) (s : Session.t) :
  s ∈ sessions (snd (cleanupExpiredSessions now db)) ↔
    s ∈ sessions db ∧ ¬ Session.expiresAt s ≤ now.
Proof. simpl. apply (elem_of_deleteWhere (λ s, Session.expiresAt s ≤ now)). Qed.

Lemma cleanupExpiredSessions_keeps_ledger (now : Z) (db : Db) :
  accounts (snd (cleanupExpiredSessions now db)) = accounts db ∧
  transactions (snd (cleanupExpiredSessions now db)) = transactions db.
Proof. done. Qed.

Lemma cleanupExpiredSessions_again (now : Z) (db : Db) :
  let db' := snd (cleanupExpiredSessions now db) in
  cleanupExpiredSessions now db' = (0, db').
Proof.
  simpl. unfold cleanupExpiredSessions, with_sessions. simpl.
  by rewrite (deleteWhere_twice (λ s, Session.expiresAt s ≤ now)).
Qed.

Lemma cleanupExpiredSessions_returns_zero (now : Z) (db : Db) :
  fst (cleanupExpiredSessions now db) = 0.
Proof. done. Qed.

(** C6. On the sample store, at an instant where exactly one session (T3)
    has [expiresAt <= now], [cleanupExpiredSessions] removes that session and
    returns 0, not 1: the number of removed sessions is not what it
    returns. *)
Theorem cleanupExpiredSessions_count_lost :
  let r := cleanupExpiredSessions (Sample.t0 + 1000) Sample.sessionsDb in
  sessions (snd r) = [Sample.T1; Sample.T2] ∧
  (length (sessions Sample.sessionsDb) - length (sessions (snd r)) = 1)%nat ∧
  fst r = 0.
Proof. by vm_compute. Qed.

(** ** Sorting *)

Section SortBy.
Context {A : Type} (le : A → A → bool).
Hypothesis le_total : ∀ x y, le x y = true ∨ le y x = true.
Hypothesis le_trans : ∀ x y z, le x y = true → le y z = true → le x z = true.

Lemma insertSorted_Permutation (x : A) (l : list A) : insertSorted le x l ≡ₚ x :: l.
Proof.
  induction l as [|y l IH]; simpl; [done|].
  destruct (le x y); [done|]. rewrite IH. apply Permutation_swap.
Qed.

Lemma sortBy_Permutation (l : list A) : sortBy le l ≡ₚ l.
Proof.
  induction l as [|x l IH]; simpl; [done|].
  rewrite insertSorted_Permutation. by rewrite IH.
Qed.

Lemma insertSorted_StronglySorted (x : A) (l : list A) :
  StronglySorted (λ a b, le a b = true) l →
  StronglySorted (λ a b, le a b = true) (insertSorted le x l).
Proof.
  induction 1 as [|y l Hl IH Hy]; simpl.
  - repeat constructor.
  - destruct (le x y) eqn:Hxy.
    + constructor; [by constructor|]. constructor; [done|].
      eapply Forall_impl; [exact Hy|]. intros z Hz. simpl in Hz. by eapply le_trans.
    + constructor; [done|].
      rewrite insertSorted_Permutation. constructor; [|done].
      destruct (le_total x y) as [Hc|Hc]; [congruence|done].
Qed.

Lemma sortBy_StronglySorted (l : list A) :
  StronglySorted (λ a b, le a b = true) (sortBy le l).
Proof.
  induction l as [|x l IH]; simpl; [constructor|].
  by apply insertSorted_StronglySorted.
Qed.
End SortBy.

Lemma elem_of_sortBy {A} (le : A → A → bool) (l : list A) (x : A) :
  x ∈ sortBy le l ↔ x ∈ l.
Proof. by rewrite sortBy_Permutation. Qed.

(** ** Facts about filters *)

Lemma filter_keeps_all {A} (P : A → Prop) `{!∀ x, Decision (P x)} (l : list A) :
  (∀ x, x ∈ l → P x) → filter P l = l.
Proof.
  induction l as [|y l IH]; intros Hall; [done|].
  rewrite filter_cons_True by (apply Hall; by left).
  f_equal. apply IH. intros x Hx. apply Hall. by right.
Qed.

Lemma filter_keeps_none {A} (P : A → Prop) `{!∀ x, Decision (P x)} (l : list A) :
  (∀ x, x ∈ l → ¬ P x) → filter P l = [].
Proof.
  induction l as [|y l IH]; intros Hno; [done|].
  rewrite filter_cons_False by (apply Hno; by left).
  apply IH. intros x Hx. apply Hno. by right.
Qed.

Lemma NoDup_fmap_filter {A K} (key : A → K) (P : A → Prop) `{!∀ x, Decision (P x)}
    (l : list A) :
  NoDup (key <$> l) → NoDup (key <$> filter P l).
Proof.
  intros Hnd. eapply sublist_NoDup; [exact Hnd|].
  apply fmap_sublist. apply sublist_filter.
Qed.

Lemma filter_swap {A} (P Q : A → Prop) `{!∀ x, Decision (P x), !∀ x, Decision (Q x)}
    (l : list A) :
  filter P (filter Q l) = filter Q (filter P l).
Proof. rewrite !list_filter_filter. apply list_filter_iff. tauto. Qed.

(** Rows that share the value of a key column: there is at most one. *)
Lemma key_column_at_most_one {A K} (key : A → K) (c : K) (l : list A) :
  NoDup (key <$> l) → (∀ x, x ∈ l → key x = c) → (length l ≤ 1)%nat.
Proof.
  intros Hnd Hall. destruct l as [|x [|y l]]; simpl; [lia..|].
  exfalso. assert (x = y) as ->.
  { apply (key_column_inj key (x :: y :: l)); [done|by left|by right; left|].
    rewrite (Hall x), (Hall y); [done|by right; left|by left]. }
  rewrite !fmap_cons in Hnd. apply NoDup_cons in Hnd as [Hx _]. apply Hx. by left.
Qed.

(** ** Session limit *)

Lemma with_sessions_same (db : Db) : with_sessions db (sessions db) = db.
Proof. by destruct db. Qed.

Lemma deleteEach_spec (sessionsToDelete : list Session.t) (db : Db) :
  deleteEach sessionsToDelete db =
    (length sessionsToDelete,
     with_sessions db
       (filter (λ s, Session.token s ∉ Session.token <$> sessionsToDelete) (sessions db))).
Proof.
  unfold deleteEach.
  change (length sessionsToDelete) with (0 + length sessionsToDelete)%nat.
  generalize 0%nat as count. revert db.
  induction sessionsToDelete as [|x l IH]; intros db count; simpl.
  - rewrite Nat.add_0_r. f_equal.
    rewrite filter_keeps_all; [by rewrite with_sessions_same|].
    intros s _. apply not_elem_of_nil.
  - rewrite IH. f_equal; [lia|].
    unfold deleteSessionsByToken, with_sessions, deleteWhere. simpl. f_equal.
    rewrite list_filter_filter. apply list_filter_iff.
    intros s. rewrite not_elem_of_cons. unfold byToken. tauto.
Qed.

Lemma getUserActiveSessions_sessionsOf (userId now : Z) (d : Db) :
  getUserActiveSessions userId now d = filter (sessionActive now) (sessionsOf userId d).
Proof.
  unfold getUserActiveSessions, sessionsOf. rewrite list_filter_filter.
  apply list_filter_iff. unfold sessionActive. tauto.
Qed.

Section EnforceLimit.
Variables (userId : Z) (keepToken : string) (db : Db).
Hypothesis tokens_unique : uniqueTokens db.

Local Abbreviation owned := (sessionsOf userId db).
Local Abbreviation others := (otherSessions userId db).
Local Abbreviation candidates := (filter (λ s, Session.token s ≠ keepToken) (sessionsOf userId db)).
Local Abbreviation kept := (keptSessions userId keepToken db).
Local Abbreviation evicted := (sessionsToDelete userId keepToken db).
Local Abbreviation spared := (sparedSessions userId keepToken db).
Local Abbreviation survives := (survivesEviction userId keepToken db).

Lemma enforceSessionLimit_over :
  (1 < length owned)%nat →
  enforceSessionLimit userId keepToken db =
    (length evicted, with_sessions db (filter survives (sessions db))).
Proof using Type.
  intros Hover. unfold enforceSessionLimit.
  rewrite bool_decide_eq_false_2 by (unfold SESSION_CONFIG.MAX_SESSIONS_PER_USER; lia).
  apply deleteEach_spec.
Qed.

Lemma owned_split : owned ≡ₚ evicted ++ spared ++ kept.
Proof using Type.
  rewrite app_assoc. unfold sessionsToDelete, sparedSessions. rewrite take_drop.
  rewrite sortBy_Permutation. unfold keptSessions.
  symmetry. apply filter_app_complement.
Qed.

Lemma store_split : sessions db ≡ₚ (evicted ++ spared ++ kept) ++ others.
Proof using Type.
  rewrite <- owned_split. unfold sessionsOf, otherSessions. symmetry. apply filter_app_complement.
Qed.

Lemma kept_at_most_one : (length kept ≤ 1)%nat.
Proof using tokens_unique.
  apply (key_column_at_most_one Session.token keepToken).
  - unfold keptSessions, sessionsOf. by do 2 apply NoDup_fmap_filter.
  - unfold keptSessions. intros s [Hk _]%list_elem_of_filter.
    destruct (decide (Session.token s = keepToken)); [done|]. by destruct Hk.
Qed.

Lemma length_evicted : (1 < length owned)%nat → length evicted = (length owned - 1)%nat.
Proof using tokens_unique.
  intros Hover. unfold sessionsToDelete, SESSION_CONFIG.MAX_SESSIONS_PER_USER.
  apply length_take_le.
  rewrite (Permutation_length (sortBy_Permutation oldestFirst candidates)).
  pose proof kept_at_most_one as Hk.
  assert (length owned = length candidates + length kept)%nat as ->; [|lia].
  rewrite <- length_app. apply Permutation_length. symmetry.
  apply filter_app_complement.
Qed.

Lemma evicted_in_store (s : Session.t) :
  s ∈ evicted → s ∈ sessions db ∧ Session.userId s = userId ∧ Session.token s ≠ keepToken.
Proof using Type.
  intros Hs. assert (s ∈ candidates) as Hc.
  { apply (elem_of_sortBy oldestFirst). unfold sessionsToDelete in Hs.
    eapply elem_of_sublist; [exact Hs|]. apply sublist_take. }
  unfold sessionsOf in Hc.
  apply list_elem_of_filter in Hc as [Hk Hc]. apply list_elem_of_filter in Hc as [Ho Hc].
  done.
Qed.

Lemma survives_iff (s : Session.t) : s ∈ sessions db → survives s ↔ s ∉ evicted.
Proof using tokens_unique.
  intros Hs. unfold survivesEviction. split.
  - intros Hno He. apply Hno. by apply list_elem_of_fmap_2.
  - intros Hno (x & Hx & He)%list_elem_of_fmap. apply Hno.
    assert (s = x) as ->; [|done].
    apply (key_column_inj Session.token (sessions db)); [done..| |done].
    by apply evicted_in_store.
Qed.

Lemma owned_after :
  filter (λ s, Session.userId s = userId) (filter survives (sessions db)) ≡ₚ spared ++ kept.
Proof using tokens_unique.
  rewrite filter_swap. fold (sessionsOf userId db).
  assert (Hnd : NoDup (Session.token <$> evicted ++ spared ++ kept)).
  { rewrite <- owned_split. unfold sessionsOf. by apply NoDup_fmap_filter. }
  rewrite owned_split, filter_app.
  rewrite (filter_keeps_none survives evicted).
  - simpl. rewrite filter_keeps_all; [done|].
    intros s Hs. unfold survivesEviction. rewrite fmap_app in Hnd.
    apply NoDup_app in Hnd as (_ & Hdisj & _). intros Hin.
    apply (Hdisj _ Hin). by apply list_elem_of_fmap_2.
  - intros s Hs Hsurv. apply Hsurv. by apply list_elem_of_fmap_2.
Qed.

Lemma others_after :
  filter (λ s, ¬ Session.userId s = userId) (filter survives (sessions db)) = others.
Proof using tokens_unique.
  rewrite filter_swap. fold (otherSessions userId db). apply filter_keeps_all.
  intros s [Hu Hs]%list_elem_of_filter. apply survives_iff; [done|].
  intros He. by apply evicted_in_store in He as (_ & ? & _).
Qed.

Lemma not_survives (s : Session.t) : s ∈ sessions db → ¬ survives s → s ∈ evicted.
Proof using tokens_unique.
  intros Hs Hno. unfold survivesEviction in Hno. apply dec_stable in Hno.
  apply list_elem_of_fmap in Hno as (x & Hx & He).
  assert (s = x) as ->; [|done].
  apply (key_column_inj Session.token (sessions db)); [done..| |done].
  by apply evicted_in_store.
Qed.

Lemma evicted_before_spared (x y : Session.t) :
  x ∈ evicted → y ∈ spared → Session.createdAt x ≤ Session.createdAt y.
Proof using Type.
  intros Hx Hy.
  assert (Hs : StronglySorted (λ a b, oldestFirst a b = true) (evicted ++ spared)).
  { unfold sessionsToDelete, sparedSessions. rewrite take_drop. apply sortBy_StronglySorted.
    - intros a b. unfold oldestFirst. rewrite !Z.leb_le. lia.
    - intros a b c. unfold oldestFirst. rewrite !Z.leb_le. lia. }
  pose proof (StronglySorted_app_1_elem_of _ _ _ _ _ Hs Hx Hy) as Hle.
  by apply Z.leb_le in Hle.
Qed.

Lemma kept_token (s : Session.t) : s ∈ kept → Session.token s = keepToken.
Proof using Type.
  unfold keptSessions. intros [Hk _]%list_elem_of_filter.
  destruct (decide (Session.token s = keepToken)); [done|]. by destruct Hk.
Qed.

Lemma length_owned_after :
  (1 < length owned)%nat →
  length (filter (λ s, Session.userId s = userId) (filter survives (sessions db))) = 1%nat.
Proof using tokens_unique.
  intros Hover. rewrite (Permutation_length owned_after).
  pose proof (Permutation_length owned_split) as Hlen.
  rewrite length_app, length_evicted in Hlen by done. lia.
Qed.

Lemma length_store_after :
  (1 < length owned)%nat →
  (length (sessions db) - length (filter survives (sessions db)))%nat = length evicted.
Proof using tokens_unique.
  intros Hover.
  pose proof (Permutation_length
                (filter_app_complement (λ s, Session.userId s = userId)
                   (filter survives (sessions db)))) as Hafter.
  rewrite length_app, length_owned_after, others_after in Hafter by done.
  pose proof (Permutation_length store_split) as Hbefore.
  pose proof (Permutation_length owned_split) as Hown.
  rewrite length_app in Hbefore. rewrite <- Hown in Hbefore.
  rewrite length_evicted by done. lia.
Qed.

(** C5. In a store whose tokens are unique: when the owner has at most
    [MAX_SESSIONS_PER_USER] sessions, [enforceSessionLimit] returns 0 and
    the store is unchanged.  Otherwise it only removes sessions of the
    owner whose token is not [keepToken], every removed session is at most
    as recent ([createdAt]) as every remaining session of the owner other
    than the kept one, the owner is left with exactly
    [MAX_SESSIONS_PER_USER] sessions, and the result is the number of
    sessions removed.  The limit being 1, at most one session of the owner
    is active afterwards, at any instant; and when [keepToken] is the
    token of a session of the owner, that session is the one the owner is
    left with, so the active sessions of the owner are that session, or
    none when it has expired. *)
Theorem enforceSessionLimit_evicts_oldest :
  let r := enforceSessionLimit userId keepToken db in
  let db' := snd r in
  ((length (sessionsOf userId db) ≤ SESSION_CONFIG.MAX_SESSIONS_PER_USER)%nat →
     r = (0%nat, db)) ∧
  ((SESSION_CONFIG.MAX_SESSIONS_PER_USER < length (sessionsOf userId db))%nat →
     (∀ s, s ∈ sessions db' → s ∈ sessions db) ∧
     (∀ s, s ∈ sessions db → s ∉ sessions db' →
        Session.userId s = userId ∧ Session.token s ≠ keepToken) ∧
     (∀ x y, x ∈ sessions db → x ∉ sessions db' →
        y ∈ sessionsOf userId db' → Session.token y ≠ keepToken →
        Session.createdAt x ≤ Session.createdAt y) ∧
     length (sessionsOf userId db') = SESSION_CONFIG.MAX_SESSIONS_PER_USER ∧
     fst r = (length (sessions db) - length (sessions db'))%nat) ∧
  accounts db' = accounts db ∧ transactions db' = transactions db ∧
  (∀ now, (length (getUserActiveSessions userId now db') ≤ 1)%nat) ∧
  (∀ keep, keep ∈ sessionsOf userId db → Session.token keep = keepToken →
     sessionsOf userId db' = [keep] ∧
     (∀ now, getUserActiveSessions userId now db' =
               if decide (sessionActive now keep) then [keep] else []) ∧
     (∀ now, survivorIsKept userId keepToken now db)).
Proof using tokens_unique.
  intros r db'.
  assert (Hclause : ∀ keep, Session.token keep = keepToken →
            sessionsOf userId db' = [keep] → ∀ now, survivorIsKept userId keepToken now db).
  { intros keep Ht Heq now s Hs. left. fold r in Hs. fold db' in Hs.
    rewrite getUserActiveSessions_sessionsOf, Heq in Hs.
    apply list_elem_of_filter in Hs as [_ Hs].
    by apply list_elem_of_singleton in Hs as ->. }
  assert (Hkeep1 : ∀ keep now, sessionsOf userId db' = [keep] →
            getUserActiveSessions userId now db' =
              if decide (sessionActive now keep) then [keep] else []).
  { intros keep now Heq. rewrite getUserActiveSessions_sessionsOf, Heq.
    rewrite filter_cons. by destruct (decide (sessionActive now keep)). }
  assert (Hactive : ∀ now, (length (sessionsOf userId db') ≤ 1)%nat →
            (length (getUserActiveSessions userId now db') ≤ 1)%nat).
  { intros now Hle. rewrite getUserActiveSessions_sessionsOf.
    etrans; [apply length_filter|done]. }
  unfold SESSION_CONFIG.MAX_SESSIONS_PER_USER.
  destruct (decide (length (sessionsOf userId db) ≤ 1)%nat) as [Hle|Hgt].
  - assert (Hr : r = (0%nat, db)).
    { subst r. unfold enforceSessionLimit.
      by rewrite bool_decide_eq_true_2. }
    assert (Hdb : db' = db) by (subst db'; by rewrite Hr).
    rewrite Hdb in Hactive, Hkeep1, Hclause |- *.
    split; [done|]. split; [lia|]. split; [done|]. split; [done|].
    split; [intros now; by apply Hactive|].
    intros keep Hk Ht.
    assert (Hone : sessionsOf userId db = [keep]).
    { destruct (sessionsOf userId db) as [|x [|y l]]; simpl in Hle.
      - by apply elem_of_nil in Hk.
      - by apply list_elem_of_singleton in Hk as ->.
      - lia. }
    split; [done|]. split; [intros now; by apply Hkeep1|by apply (Hclause keep)].
  - assert (Hover : (1 < length owned)%nat) by lia.
    assert (Hr : r = (length evicted, with_sessions db (filter survives (sessions db)))).
    { subst r. by apply enforceSessionLimit_over. }
    assert (Hs : sessions db' = filter survives (sessions db)) by (subst db'; by rewrite Hr).
    assert (Hlen : length (sessionsOf userId db') = 1%nat).
    { unfold sessionsOf. rewrite Hs. by apply length_owned_after. }
    assert (Hgone : ∀ s, s ∈ sessions db → s ∉ sessions db' → s ∈ evicted).
    { intros s Hin Hout. apply not_survives; [done|]. intros Hsurv. apply Hout.
      rewrite Hs. by apply list_elem_of_filter. }
    split; [intros; lia|]. split; [intros _|].
    { split; [intros s; rewrite Hs; by intros [_ ?]%list_elem_of_filter|].
      split.
      { intros s Hin Hout. by apply evicted_in_store, Hgone. }
      split.
      { intros x y Hx Hxout Hy Hyk. apply evicted_before_spared; [by apply Hgone|].
        unfold sessionsOf in Hy. rewrite Hs, owned_after in Hy.
        apply elem_of_app in Hy as [Hy|Hy]; [done|].
        by apply kept_token in Hy. }
      split; [done|].
      subst r. rewrite Hr, Hs. simpl. by rewrite length_store_after. }
    split; [subst db'; by rewrite Hr|]. split; [subst db'; by rewrite Hr|].
    split; [intros now; apply Hactive; lia|].
    intros keep Hk Ht.
    assert (Hin : keep ∈ sessionsOf userId db').
    { unfold sessionsOf in *. apply list_elem_of_filter in Hk as [Hu Hk].
      apply list_elem_of_filter. split; [done|]. rewrite Hs.
      apply list_elem_of_filter. split; [|done].
      apply survives_iff; [done|]. intros He.
      by apply evicted_in_store in He as (_ & _ & ?). }
    assert (Hone : sessionsOf userId db' = [keep]).
    { destruct (sessionsOf userId db') as [|x [|y l]]; simpl in Hlen; [lia| |lia].
      by apply list_elem_of_singleton in Hin as ->. }
    split; [done|]. split; [intros now; by apply Hkeep1|by apply (Hclause keep)].
Qed.
End EnforceLimit.

Lemma enforceSessionLimit_evicts_oldest_witness :
  sessionsOf 7 (snd (enforceSessionLimit 7 "T2" Sample.sessionsDb)) = [Sample.T2] ∧
  fst (enforceSessionLimit 7 "T2" Sample.sessionsDb) = 1%nat.
Proof.
  pose proof (enforceSessionLimit_evicts_oldest 7 "T2" Sample.sessionsDb
                sample_uniqueTokens) as H.
  cbv zeta in H. destruct H as (_ & _ & _ & _ & _ & Hkeep).
  split; [|reflexivity].
  apply (Hkeep Sample.T2); [|reflexivity].
  change (Sample.T2 ∈ [Sample.T1; Sample.T2]). right. left.
Defined.

(** ** Funding *)

Lemma fundUnit_commits (input : FundInput.t) (now : Z) (fails : FundStep → bool) (db : Db)
    (result : option Transaction.t * option Account.t) (db' : Db) :
  fundUnit input (FundInput.amount input) now fails db = Some (result, db') →
  (∀ st, fails st = false) ∧ db' = funded input now db ∧
  fst result = head (sortBy newestFirst
                       (filter (λ t, Transaction.accountId t = FundInput.accountId input)
                               (transactions db'))) ∧
  snd result = selectGet (λ a, Account.id a = FundInput.accountId input) (accounts db').
Proof.
  unfold fundUnit, txBind, stmt, txRet.
  destruct (fails InsertTransaction) eqn:E1; [done|].
  destruct (fails SelectTransaction) eqn:E2; [done|].
  destruct (fails UpdateBalance) eqn:E3; [done|].
  destruct (fails SelectAccount) eqn:E4; [done|].
  intros [= <- <-]. split; [by intros []|]. done.
Qed.


Lemma fundUnit_runs (input : FundInput.t) (now : Z) (fails : FundStep → bool) (db : Db) :
  (∀ st, fails st = false) →
  ∃ result, fundUnit input (FundInput.amount input) now fails db
              = Some (result, funded input now db).
Proof.
  intros Hno. unfold fundUnit, txBind, stmt, txRet. rewrite !Hno. by eexists.
Qed.

(** A call of [fundAccount] either throws and leaves the store as it was, or
    returns and commits [funded]. *)
Lemma fundAccount_cases (input : FundInput.t) (user now : Z) (fails : FundStep → bool)
    (db : Db) :
  (∃ e, fundAccount input user now fails db = (Throw e, db)) ∨
  (∃ out account,
     fundAccount input user now fails db = (Ok out, funded input now db) ∧
     0 < FundInput.amount input ∧
     account ∈ accounts db ∧ Account.id account = FundInput.accountId input ∧
     Account.userId account = user ∧ Account.status account = "active"%string ∧
     (∀ st, fails st = false)).
Proof.
  unfold fundAccount.
  case_bool_decide as Hamt; [left; by eexists|].
  destruct (selectGet _ (accounts db)) as [account|] eqn:Hsel; [|left; by eexists].
  case_bool_decide as Hst; [left; by eexists|].
  unfold dbTransaction.
  destruct (fundUnit input (FundInput.amount input) now fails db) as [[result db']|] eqn:E;
    [|left; by eexists].
  apply fundUnit_commits in E as (Hno & -> & _). right.
  apply selectGet_Some in Hsel as (Hin & Hid & Hu).
  eexists _, account. split; [done|]. split; [lia|]. split; [done|]. split; [done|].
  split; [done|]. split; [|done].
  by destruct (decide (Account.status account = "active"%string)).
Qed.


Lemma selectGet_by_key {A K} (key : A → K) (P : A → Prop) `{!∀ x, Decision (P x)}
    (rows : list A) (x : A) :
  NoDup (key <$> rows) → x ∈ rows → P x → (∀ y, P y → key y = key x) →
  selectGet P rows = Some x.
Proof.
  intros Hnd Hx HP Hkey.
  destruct (selectGet_is_Some P rows) as [y E]; [by exists x|].
  rewrite E. f_equal. apply selectGet_Some in E as [Hy HPy].
  apply (key_column_inj key rows); auto.
Qed.




(** ** The ledger invariant *)

Lemma nextId_fresh (ids : list Z) : nextId ids ∉ ids.
Proof.
  assert (Hmax : ∀ x, x ∈ ids → x ≤ foldr Z.max 0 ids).
  { induction ids as [|y ids IH]; intros x Hx; [by apply elem_of_nil in Hx|].
    simpl. apply elem_of_cons in Hx as [->|Hx]; [lia|]. specialize (IH x Hx). lia. }
  intros Hin. apply Hmax in Hin. unfold nextId in Hin. lia.
Qed.

Lemma ledgerSum_snoc (accountId : Z) (db : Db) (row : Transaction.t) :
  ledgerSum accountId (with_transactions db (transactions db ++ [row])) =
    ledgerSum accountId db +
    (if decide (Transaction.accountId row = accountId) then signedAmount row else 0).
Proof.
  unfold ledgerSum. simpl. rewrite filter_app, fmap_app, foldr_app.
  assert (Hshift : ∀ (l : list Z) (z : Z), foldr Z.add z l = foldr Z.add 0 l + z).
  { induction l as [|y l IH]; intros z; simpl; [lia|]. rewrite IH. lia. }
  rewrite Hshift. f_equal. rewrite filter_cons, filter_nil.
  destruct (decide (Transaction.accountId row = accountId)); simpl; lia.
Qed.

Lemma ledgerSum_accounts (accountId : Z) (db : Db) (accs : list Account.t) :
  ledgerSum accountId (with_accounts db accs) = ledgerSum accountId db.
Proof. done. Qed.

Lemma balanced_funded (input : FundInput.t) (now : Z) (db : Db) :
  balanced db → balanced (funded input now db).
Proof.
  intros Hbal a' Ha'. simpl in Ha'.
  apply list_elem_of_fmap in Ha' as (a & -> & Ha).
  change (funded input now db)
    with (with_accounts
            (with_transactions db (transactions db ++ [depositRow input now db]))
            (addToBalance (FundInput.accountId input) (FundInput.amount input) <$> accounts db)).
  rewrite ledgerSum_accounts, ledgerSum_snoc. simpl.
  unfold addToBalance.
  destruct (decide (Account.id a = FundInput.accountId input)) as [Heq|Hne]; simpl.
  - rewrite decide_True by done. rewrite (Hbal a Ha). by rewrite Heq.
  - rewrite decide_False by done. rewrite (Hbal a Ha). lia.
Qed.

Lemma ledgerOwned_funded (input : FundInput.t) (now : Z) (db : Db) (account : Account.t) :
  account ∈ accounts db → Account.id account = FundInput.accountId input →
  ledgerOwned db → ledgerOwned (funded input now db).
Proof.
  intros Hin Hid Hown t Ht. simpl in *.
  assert (Hids : Account.id <$>
                   (addToBalance (FundInput.accountId input) (FundInput.amount input)
                      <$> accounts db) = Account.id <$> accounts db).
  { rewrite <- list_fmap_compose. apply list_fmap_ext. intros _ a _. simpl.
    unfold addToBalance. by destruct (decide (Account.id a = FundInput.accountId input)). }
  rewrite Hids. apply elem_of_app in Ht as [Ht|Ht]; [by apply Hown|].
  apply list_elem_of_singleton in Ht as ->. simpl. rewrite <- Hid.
  by apply list_elem_of_fmap_2.
Qed.

Lemma ledger_inserted_account (userId : Z) (accountNumber : string) (accountType : AccountType)
    (db : Db) :
  balanced db → ledgerOwned db →
  balanced (insertAccount userId accountNumber accountType 0 "active" db) ∧
  ledgerOwned (insertAccount userId accountNumber accountType 0 "active" db).
Proof.
  intros Hbal Hown. split.
  - intros a Ha. unfold insertAccount in *. rewrite ledgerSum_accounts. simpl in Ha.
    apply elem_of_app in Ha as [Ha|Ha]; [by apply Hbal|].
    apply list_elem_of_singleton in Ha as ->. simpl.
    unfold ledgerSum. rewrite filter_keeps_none; [done|].
    intros t Ht Heq. apply (nextId_fresh (Account.id <$> accounts db)).
    rewrite <- Heq. by apply Hown.
  - intros t Ht. simpl in *. rewrite fmap_app. apply elem_of_app. left. by apply Hown.
Qed.

Lemma pickAccountNumber_never_throws (fuel : nat) (g : Rng) (db : Db) (e : Exn) :
  pickAccountNumber fuel g db ≠ Some (Throw e).
Proof.
  revert g. induction fuel as [|fuel IH]; intros g; simpl; [done|].
  unfold generateAccountNumber, generateSecureAccountNumber, secureRandomNumeric.
  simpl. unfold secureRandomInt. simpl.
  destruct (selectGet _ (accounts db)); [apply IH|done].
Qed.

Lemma createAccount_cases (accountType : AccountType) (user : Z) (fuel : nat)
    (others : Db → Db) (g : Rng) (db : Db) (r : Result Account.t) (db' : Db) (g' : Rng) :
  createAccount accountType user fuel others g db = Some (r, db', g') →
  (db' = db ∧ ∃ e, r = Throw e) ∨
  (∃ accountNumber,
     pickAccountNumber fuel g db = Some (Ok (accountNumber, g')) ∧
     db' = others (insertAccount user accountNumber accountType 0 "active" db) ∧
     r = match selectGet (λ a, Account.accountNumber a = accountNumber) (accounts db') with
         | None => Throw (TRPCError INTERNAL_SERVER_ERROR "Failed to create account")
         | Some account => Ok account
         end).
Proof.
  unfold createAccount.
  destruct (selectGet _ (accounts db)) as [existing|] eqn:Hex.
  { intros [= <- <- <-]. left. split; [done|]. by eexists. }
  destruct (pickAccountNumber fuel g db) as [[[accountNumber g1]|e]|] eqn:Hpick; [| |done].
  - intros H. right. exists accountNumber.
    destruct (selectGet _ (accounts (others _))) as [account|] eqn:Hread;
      injection H as <- <- <-; rewrite Hread; done.
  - intros [= <- <- <-]. left. split; [done|]. by eexists.
Qed.

(** Every operation that returns keeps the invariant, whatever it
    returns. *)
Lemma runOp_keeps_ledger (op : Op) (db db' : Db) :
  balanced db → ledgerOwned db → runOp op db = Some db' →
  balanced db' ∧ ledgerOwned db'.
Proof.
  intros Hbal Hown Hop.
  destruct op as [accountType user fuel g|input user now fails]; simpl in Hop.
  - destruct (createAccount accountType user fuel id g db) as [[[r d] g']|] eqn:Hc; [|done].
    injection Hop as ->.
    apply createAccount_cases in Hc as [[-> _]|(accountNumber & _ & -> & _)]; [done|].
    by apply ledger_inserted_account.
  - injection Hop as <-.
    destruct (fundAccount_cases input user now fails db)
      as [[e ->]|(out & account & -> & _ & Hin & Hid & _)]; [done|].
    simpl. split; [by apply balanced_funded|by eapply ledgerOwned_funded].
Qed.

Lemma runOps_keeps_ledger (ops : list Op) (db db' : Db) :
  balanced db → ledgerOwned db → runOps ops db = Some db' →
  balanced db' ∧ ledgerOwned db'.
Proof.
  revert db. induction ops as [|op ops IH]; intros db Hbal Hown Hrun; simpl in Hrun.
  - by injection Hrun as <-.
  - destruct (runOp op db) as [db1|] eqn:Hop; [|done].
    destruct (runOp_keeps_ledger op db db1 Hbal Hown Hop) as [Hbal1 Hown1].
    by apply (IH db1).
Qed.



(** ** Reading the ledger *)

Lemma elem_of_joinRows (accs : list Account.t) (t : Transaction.t)
    (r : Transaction.t * option Account.t) :
  r ∈ joinRows accs t → fst r = t.
Proof.
  unfold joinRows. destruct (filter _ accs) as [|a matches].
  - by intros ->%list_elem_of_singleton.
  - by intros (a' & -> & _)%list_elem_of_fmap.
Qed.


Lemma elem_of_leftJoinAccounts (txs : list Transaction.t) (accs : list Account.t)
    (r : Transaction.t * option Account.t) :
  r ∈ leftJoinAccounts txs accs → fst r ∈ txs.
Proof.
  unfold leftJoinAccounts. induction txs as [|t txs IH]; simpl.
  - by intros ?%elem_of_nil.
  - intros [Hr|Hr]%elem_of_app; [|right; by apply IH].
    apply elem_of_joinRows in Hr as ->. by left.
Qed.




(** ** Account numbers *)

Lemma append_assoc (a b c : string) : (a +:+ b) +:+ c = a +:+ (b +:+ c).
Proof.
  induction a as [|x a IH]; [done|].
  change (String x ((a +:+ b) +:+ c) = String x (a +:+ (b +:+ c))). by rewrite IH.
Qed.

Lemma numberToString_digit (d : Z) :
  0 ≤ d ≤ 9 → ∃ c, numberToString d = String c EmptyString ∧ isDigit c = true.
Proof.
  intros Hd.
  assert (d = 0 ∨ d = 1 ∨ d = 2 ∨ d = 3 ∨ d = 4 ∨ d = 5 ∨ d = 6 ∨ d = 7 ∨ d = 8 ∨ d = 9)
    as Hcases by lia.
  repeat (destruct Hcases as [->|Hcases]; [eexists; split; reflexivity|]).
  subst d. eexists; split; reflexivity.
Qed.

Lemma secureRandomInt_digit (g : Rng) :
  ∃ d, secureRandomInt 0 9 g = Ok (d, mkRng (tape g) (S (cursor g))) ∧ 0 ≤ d ≤ 9 ∧
       d = tape g (cursor g) `mod` 10.
Proof.
  unfold secureRandomInt, randomInt.
  rewrite bool_decide_eq_false_2 by lia.
  change (9 + 1 - 0) with 10. rewrite Z.add_0_l.
  eexists. split; [done|].
  pose proof (Z.mod_pos_bound (tape g (cursor g)) 10 eq_refl). split; [lia|done].
Qed.

Lemma numericLoop_digits (count : nat) (result : string) (g : Rng) :
  ∃ s, numericLoop count result g
         = Ok (result +:+ s, mkRng (tape g) (count + cursor g)) ∧
       String.length s = count ∧ allDigits s = true.
Proof.
  revert result g. induction count as [|count IH]; intros result g.
  - exists EmptyString. split; [|done]. destruct g as [tp cur]. simpl. f_equal. f_equal.
    induction result as [|x result IHr]; [done|].
    change (String x result = String x (result +:+ "")). by rewrite <- IHr.
  - cbn [numericLoop]. destruct (secureRandomInt_digit g) as (d & -> & Hd & _).
    destruct (numberToString_digit d Hd) as (c & -> & Hc).
    destruct (IH (result +:+ String c EmptyString) (mkRng (tape g) (S (cursor g))))
      as (s & -> & Hlen & Hall).
    exists (String c s). simpl. split; [|split].
    + rewrite append_assoc. do 3 f_equal. lia.
    + by rewrite Hlen.
    + unfold allDigits in *. simpl. by rewrite Hc, Hall.
Qed.

(** Every account number is made of ten decimal digits, and takes ten
    values from the secure source. *)
Lemma generateSecureAccountNumber_tenDigits (g : Rng) :
  ∃ s, generateSecureAccountNumber g = Ok (s, mkRng (tape g) (10 + cursor g)) ∧
       tenDigits s = true.
Proof.
  unfold generateSecureAccountNumber, secureRandomNumeric. simpl.
  destruct (numericLoop_digits 10 "" g) as (s & Hs & Hlen & Hall).
  exists s. split; [exact Hs|]. unfold tenDigits. by rewrite Hlen, Hall.
Qed.

(** C7. With a secure source whose first value is 0, the generator returns
    "0123456789": ten digits, the first of which is zero, so that the
    pattern [/^[1-9]\d{9}$/] of the repository's test does not match; and
    [createAccount] stores an account under that number. *)
Theorem generateSecureAccountNumber_leading_zero :
  ∃ g', generateSecureAccountNumber Sample.countingSource = Ok ("0123456789"%string, g') ∧
        tenDigits "0123456789" = true ∧
        nonZeroThenNineDigits "0123456789" = false ∧
        createAccount checking 7 1 id Sample.countingSource emptyDb =
          Some (Ok (Account.mk 1 7 "0123456789" checking 0 "active"),
                mkDb [Account.mk 1 7 "0123456789" checking 0 "active"] [] [], g').
Proof. eexists. repeat split; vm_compute; reflexivity. Qed.

(** ** Account creation *)

Lemma pickAccountNumber_fresh (fuel : nat) (g : Rng) (db : Db) (accountNumber : string)
    (g' : Rng) :
  pickAccountNumber fuel g db = Some (Ok (accountNumber, g')) →
  ∀ a, a ∈ accounts db → Account.accountNumber a ≠ accountNumber.
Proof.
  revert g. induction fuel as [|fuel IH]; intros g; [done|]. cbn [pickAccountNumber].
  destruct (generateAccountNumber g) as [[n g1]|e]; [|done].
  destruct (selectGet _ (accounts db)) eqn:Hsel; [apply IH|].
  intros [= <- <-]. by apply (selectGet_None (λ a, Account.accountNumber a = n)).
Qed.

(** The loop ends as soon as a drawn number is not taken: with more fuel
    than the rank of such a draw, it returns. *)
Lemma pickAccountNumber_returns (k : nat) (g : Rng) (db : Db) (accountNumber : string)
    (g' : Rng) :
  generateAccountNumber (advance k g) = Ok (accountNumber, g') →
  (∀ a, a ∈ accounts db → Account.accountNumber a ≠ accountNumber) →
  ∀ fuel, (k < fuel)%nat →
    ∃ n g'', pickAccountNumber fuel g db = Some (Ok (n, g'')).
Proof.
  revert g. induction k as [|k IH]; intros g Hgen Hfresh fuel Hfuel;
    (destruct fuel as [|fuel]; [lia|]); cbn [pickAccountNumber].
  - assert (advance 0 g = g) as Hg by (by destruct g). rewrite Hg in Hgen. rewrite Hgen.
    assert (selectGet (λ a, Account.accountNumber a = accountNumber) (accounts db) = None)
      as ->; [|by eexists _, _].
    by apply (selectGet_None (λ a, Account.accountNumber a = accountNumber)).
  - unfold generateAccountNumber in *.
    destruct (generateSecureAccountNumber_tenDigits g) as (n0 & Hn0 & _). rewrite Hn0.
    destruct (selectGet _ (accounts db)); [|by eexists _, _].
    apply IH; [|done|lia].
    rewrite <- Hgen. f_equal. unfold advance. simpl. f_equal. lia.
Qed.

(** C8. [createAccount] throws [CONFLICT] and leaves the store (and the
    secure source) untouched when the owner already has an account of the
    type.  When there is none and the loop has picked a number, the account
    is inserted; if the re-read then finds no row under that number, the
    call throws [INTERNAL_SERVER_ERROR]; if it finds one, the call returns
    that row.  An account that [createAccount] returns is always a row of
    the store it leaves. *)
Theorem createAccount_conflict_and_reread (accountType : AccountType) (user : Z)
    (fuel : nat) (others : Db → Db) (g : Rng) (db : Db) :
  ((∃ a, a ∈ accounts db ∧ Account.userId a = user ∧ Account.accountType a = accountType) →
     createAccount accountType user fuel others g db =
       Some (Throw (TRPCError CONFLICT
                      ("You already have a " +:+ accountTypeName accountType +:+ " account")),
             db, g)) ∧
  ((∀ a, a ∈ accounts db →
         ¬ (Account.userId a = user ∧ Account.accountType a = accountType)) →
   ∀ accountNumber g',
     pickAccountNumber fuel g db = Some (Ok (accountNumber, g')) →
     let db' := others (insertAccount user accountNumber accountType 0 "active" db) in
     ((∀ a, a ∈ accounts db' → Account.accountNumber a ≠ accountNumber) →
        createAccount accountType user fuel others g db =
          Some (Throw (TRPCError INTERNAL_SERVER_ERROR "Failed to create account"), db', g')) ∧
     ((∃ a, a ∈ accounts db' ∧ Account.accountNumber a = accountNumber) →
        ∃ account,
          createAccount accountType user fuel others g db = Some (Ok account, db', g') ∧
          account ∈ accounts db' ∧ Account.accountNumber account = accountNumber)) ∧
  (∀ account db' g',
     createAccount accountType user fuel others g db = Some (Ok account, db', g') →
     account ∈ accounts db').
Proof.
  split; [|split].
  - intros Hex. unfold createAccount.
    by destruct (selectGet_is_Some
                   (λ a, Account.userId a = user ∧ Account.accountType a = accountType)
                   (accounts db) Hex) as [a0 ->].
  - intros Hno accountNumber g' Hpick db'. unfold createAccount.
    assert (selectGet (λ a, Account.userId a = user ∧ Account.accountType a = accountType)
              (accounts db) = None) as ->.
    { by apply (selectGet_None
                  (λ a, Account.userId a = user ∧ Account.accountType a = accountType)). }
    rewrite Hpick. fold db'. split.
    + intros Hlost.
      assert (selectGet (λ a, Account.accountNumber a = accountNumber) (accounts db') = None)
        as ->; [|done].
      by apply (selectGet_None (λ a, Account.accountNumber a = accountNumber)).
    + intros Hfound.
      destruct (selectGet_is_Some (λ a, Account.accountNumber a = accountNumber)
                  (accounts db') Hfound) as [account Hread].
      rewrite Hread. exists account. split; [done|].
      by apply selectGet_Some in Hread.
  - intros account db' g' Hc.
    apply createAccount_cases in Hc as [[_ [e ?]]|(accountNumber & _ & _ & Hr)]; [done|].
    destruct (selectGet _ (accounts db')) as [a|] eqn:Hread; [|done].
    injection Hr as ->. by apply selectGet_Some in Hread as [? _].
Qed.

Lemma createAccount_conflict_and_reread_witness :
  createAccount checking 7 1 id Sample.countingSource Sample.ledgerDb =
    Some (Throw (TRPCError CONFLICT "You already have a checking account"),
          Sample.ledgerDb, Sample.countingSource) ∧
  createAccount savings 7 1 Sample.rowsLost Sample.countingSource Sample.ledgerDb =
    Some (Throw (TRPCError INTERNAL_SERVER_ERROR "Failed to create account"),
          Sample.rowsLost
            (insertAccount 7 "0123456789" savings 0 "active" Sample.ledgerDb),
          advance 1 Sample.countingSource).
Proof.
  split.
  - apply (proj1 (createAccount_conflict_and_reread checking 7 1 id Sample.countingSource
                    Sample.ledgerDb)).
    exists Sample.A1. split; [by left|]. split; reflexivity.
  - apply (proj2 (createAccount_conflict_and_reread savings 7 1 Sample.rowsLost
                    Sample.countingSource Sample.ledgerDb)).
    + intros a ->%list_elem_of_singleton [_ Hty]. discriminate Hty.
    + reflexivity.
    + intros a Ha. simpl in Ha. by apply elem_of_nil in Ha.
Defined.

(** Alone on the store, [createAccount] returns the row it has inserted: the
    next id, the picked number, a balance of 0, status active. *)
Lemma createAccount_alone (accountType : AccountType) (user : Z) (fuel : nat) (g : Rng)
    (db : Db) (accountNumber : string) (g' : Rng) :
  (∀ a, a ∈ accounts db →
        ¬ (Account.userId a = user ∧ Account.accountType a = accountType)) →
  pickAccountNumber fuel g db = Some (Ok (accountNumber, g')) →
  createAccount accountType user fuel id g db =
    Some (Ok (Account.mk (nextId (Account.id <$> accounts db)) user accountNumber
                accountType 0 "active"),
          insertAccount user accountNumber accountType 0 "active" db, g').
Proof.
  intros Hno Hpick. unfold createAccount.
  assert (selectGet (λ a, Account.userId a = user ∧ Account.accountType a = accountType)
            (accounts db) = None) as ->.
  { by apply (selectGet_None
                (λ a, Account.userId a = user ∧ Account.accountType a = accountType)). }
  rewrite Hpick. simpl. unfold selectGet. rewrite filter_app.
  rewrite (filter_keeps_none (λ a, Account.accountNumber a = accountNumber) (accounts db)).
  - by rewrite filter_cons_True.
  - by apply (pickAccountNumber_fresh fuel g db accountNumber g').
Qed.

(** ** The kept session *)

(** On the sample store, with the token of a live session of another owner
    (T3, of owner 8) as [keepToken], the owner 7 is left with the active
    session T2: it is not the session under [keepToken], and that session
    had not expired. *)
Lemma enforceSessionLimit_foreign_keepToken :
  uniqueTokens Sample.sessionsDb ∧
  ¬ survivorIsKept 7 "T3" Sample.t0 Sample.sessionsDb.
Proof.
  split; [apply (bool_decide_unpack _); by vm_compute|].
  intros Hkept. destruct (Hkept Sample.T2) as [Heq|(k & Hk & Ht & Hexp)].
  - change (Sample.T2 ∈ [Sample.T2]). by left.
  - discriminate Heq.
  - simpl in Hk. apply elem_of_cons in Hk as [->|Hk]; [discriminate Ht|].
    apply elem_of_cons in Hk as [->|Hk]; [discriminate Ht|].
    apply list_elem_of_singleton in Hk as ->.
    unfold sessionExpired, Sample.T3, Sample.t0 in Hexp. simpl in Hexp. lia.
Qed.

(** * More of the code: properties *)

(** ** Logging out everywhere *)

Lemma deleteAllBut_deleteEach (exceptToken : string) (existingSessions : list Session.t)
    (db : Db) :
  deleteAllBut exceptToken existingSessions db =
    snd (deleteEach (filter (λ s, Session.token s ≠ exceptToken) existingSessions) db).
Proof.
  unfold deleteAllBut, deleteEach. generalize 0%nat as count. revert db.
  induction existingSessions as [|x l IH]; intros db count; [done|].
  simpl. rewrite filter_cons.
  destruct (decide (Session.token x ≠ exceptToken)); simpl; apply IH.
Qed.

Lemma sessions_deleteAllBut (exceptToken : string) (existingSessions : list Session.t)
    (db : Db) :
  sessions (deleteAllBut exceptToken existingSessions db) =
    filter (λ s, Session.token s ∉
                   Session.token <$>
                     filter (λ s, Session.token s ≠ exceptToken) existingSessions)
           (sessions db).
Proof. by rewrite deleteAllBut_deleteEach, deleteEach_spec. Qed.

Lemma filter_ext_in {A} (P Q : A → Prop) `{!∀ x, Decision (P x), !∀ x, Decision (Q x)}
    (l : list A) :
  (∀ x, x ∈ l → P x ↔ Q x) → filter P l = filter Q l.
Proof.
  induction l as [|y l IH]; intros Hext; [done|].
  rewrite !filter_cons.
  assert (Hl : filter P l = filter Q l) by (apply IH; intros x Hx; apply Hext; by right).
  destruct (decide (P y)) as [HP|HP], (decide (Q y)) as [HQ|HQ]; rewrite ?Hl; try done.
  - exfalso. apply HQ, (Hext y); [by left|done].
  - exfalso. apply HP, (Hext y); [by left|done].
Qed.

Lemma length_filter_split {A} (P : A → Prop) `{!∀ x, Decision (P x)} (l : list A) :
  length l = (length (filter P l) + length (filter (λ x, ¬ P x) l))%nat.
Proof.
  rewrite <- length_app. symmetry. apply Permutation_length, filter_app_complement.
Qed.

(** X1. In a store whose tokens are unique, [invalidateAllUserSessions]
    with a non-empty [exceptToken] removes exactly the sessions of the owner
    that are not under [exceptToken]: the sessions of other owners and the
    session under [exceptToken] stay, unique tokens and the ledger are
    kept, and the result is the number of sessions removed. *)
Theorem invalidateAllUserSessions_except (userId : Z) (exceptToken : string) (db : Db) :
  uniqueTokens db → exceptToken ≠ ""%string →
  let r := invalidateAllUserSessions userId (Some exceptToken) db in
  sessions (snd r) =
    filter (λ s, ¬ (Session.userId s = userId ∧ Session.token s ≠ exceptToken))
           (sessions db) ∧
  (∀ s, s ∈ sessionsOf userId (snd r) → Session.token s = exceptToken) ∧
  fst r = (length (sessions db) - length (sessions (snd r)))%nat ∧
  uniqueTokens (snd r) ∧
  accounts (snd r) = accounts db ∧ transactions (snd r) = transactions db.
Proof.
  intros Hu Hne r. subst r. unfold invalidateAllUserSessions. simpl.
  rewrite decide_False by done. simpl.
  assert (Hs : sessions (deleteAllBut exceptToken (sessionsOf userId db) db) =
    filter (λ s, ¬ (Session.userId s = userId ∧ Session.token s ≠ exceptToken))
           (sessions db)).
  { rewrite sessions_deleteAllBut. apply filter_ext_in.
    intros s Hs. split.
    - intros Hno [Hown Htok]. apply Hno. apply list_elem_of_fmap_2.
      apply list_elem_of_filter. split; [done|]. by apply list_elem_of_filter.
    - intros Hno (x & Hx & [Htok [Hown Hin]%list_elem_of_filter]%list_elem_of_filter)
                 %list_elem_of_fmap.
      assert (s = x) as -> by (by apply (key_column_inj Session.token (sessions db))).
      by apply Hno. }
  split; [exact Hs|]. split; [|split; [|split; [|split]]].
  - intros s [Hown Hin]%list_elem_of_filter. rewrite Hs in Hin.
    apply list_elem_of_filter in Hin as [Hkeep _].
    destruct (decide (Session.token s = exceptToken)); [done|]. by destruct Hkeep.
  - rewrite Hs.
    rewrite (length_filter_split
               (λ s, Session.userId s = userId ∧ Session.token s ≠ exceptToken)
               (sessions db)).
    unfold sessionsOf. rewrite list_filter_filter.
    assert (filter (λ s, Session.token s ≠ exceptToken ∧ Session.userId s = userId)
              (sessions db) =
            filter (λ s, Session.userId s = userId ∧ Session.token s ≠ exceptToken)
              (sessions db)) as -> by (apply list_filter_iff; tauto).
    lia.
  - unfold uniqueTokens. rewrite Hs. by apply NoDup_fmap_filter.
  - by rewrite deleteAllBut_deleteEach, deleteEach_spec.
  - by rewrite deleteAllBut_deleteEach, deleteEach_spec.
Qed.

(** X2. Without an [exceptToken], or with the empty string as
    [exceptToken], [invalidateAllUserSessions] removes every session of the
    owner, the caller's own included, leaves the sessions of the other
    owners in place, and returns 0 whatever it removed. *)
Theorem invalidateAllUserSessions_everything (userId : Z) (exceptToken : option string)
    (db : Db) :
  exceptToken = None ∨ exceptToken = Some ""%string →
  let r := invalidateAllUserSessions userId exceptToken db in
  fst r = 0%nat ∧
  sessionsOf userId (snd r) = [] ∧
  (∀ s, s ∈ sessions (snd r) ↔ s ∈ sessions db ∧ Session.userId s ≠ userId) ∧
  (length (sessions db) - length (sessions (snd r)))%nat = length (sessionsOf userId db).
Proof.
  intros Hfalsy r.
  assert (Hr : r = (0%nat, with_sessions db
                      (deleteWhere (λ s, Session.userId s = userId) (sessions db)))).
  { subst r. by destruct Hfalsy as [-> | ->]. }
  rewrite Hr. simpl. split; [done|]. split; [|split].
  - unfold sessionsOf. simpl. apply filter_keeps_none.
    intros s Hs. by apply (elem_of_deleteWhere (λ s, Session.userId s = userId)) in Hs as [_ ?].
  - intros s. apply (elem_of_deleteWhere (λ s, Session.userId s = userId)).
  - unfold deleteWhere, sessionsOf.
    rewrite (length_filter_split (λ s, Session.userId s = userId) (sessions db)). lia.
Qed.

Lemma invalidateAllUserSessions_everything_witness :
  fst (invalidateAllUserSessions 7 (Some ""%string) Sample.sessionsDb) = 0%nat ∧
  sessionsOf 7 (snd (invalidateAllUserSessions 7 (Some ""%string) Sample.sessionsDb)) = [].
Proof.
  destruct (invalidateAllUserSessions_everything 7 (Some ""%string) Sample.sessionsDb)
    as (H0 & Hnone & _); [by right|].
  by split.
Defined.

Lemma invalidateAllUserSessions_except_witness :
  sessions (snd (invalidateAllUserSessions 7 (Some "T2"%string) Sample.sessionsDb))
    = [Sample.T2; Sample.T3] ∧
  fst (invalidateAllUserSessions 7 (Some "T2"%string) Sample.sessionsDb) = 1%nat.
Proof.
  destruct (invalidateAllUserSessions_except 7 "T2" Sample.sessionsDb sample_uniqueTokens)
    as (Hs & _ & Hn & _); [done|].
  split; [by rewrite Hs|by rewrite Hn, Hs].
Defined.

(** X3. In a store whose tokens are unique, when [keepToken] (not empty) is
    the token of one of the owner's sessions, [enforceSessionLimit] and
    [invalidateAllUserSessions] with [keepToken] as the exception do the
    same: same result, same store. *)
Theorem enforceSessionLimit_is_invalidateAll (userId : Z) (keepToken : string) (db : Db)
    (keep : Session.t) :
  uniqueTokens db → keepToken ≠ ""%string →
  keep ∈ sessionsOf userId db → Session.token keep = keepToken →
  enforceSessionLimit userId keepToken db
    = invalidateAllUserSessions userId (Some keepToken) db.
Proof.
  intros Hu Hne Hin Htok.
  unfold invalidateAllUserSessions. simpl. rewrite decide_False by done.
  rewrite deleteAllBut_deleteEach, deleteEach_spec. simpl.
  destruct (decide (length (sessionsOf userId db) ≤ 1)%nat) as [Hle|Hgt].
  - unfold enforceSessionLimit. rewrite bool_decide_eq_true_2 by done.
    assert (Hone : sessionsOf userId db = [keep]).
    { destruct (sessionsOf userId db) as [|x [|y l]]; simpl in Hle; [|by apply list_elem_of_singleton in Hin as ->|lia].
      by apply elem_of_nil in Hin. }
    rewrite Hone, filter_cons, filter_nil, decide_False by (intros Hk; by apply Hk).
    simpl. f_equal. rewrite filter_keeps_all; [by rewrite with_sessions_same|].
    intros s _. apply not_elem_of_nil.
  - rewrite enforceSessionLimit_over by lia.
    assert (Hkept : length (keptSessions userId keepToken db) = 1%nat).
    { pose proof (kept_at_most_one userId keepToken db Hu) as Hk1.
      assert (keep ∈ keptSessions userId keepToken db) as Hk.
      { unfold keptSessions. apply list_elem_of_filter. split; [|done]. intros Hk. by apply Hk. }
      destruct (keptSessions userId keepToken db); [by apply elem_of_nil in Hk|]. simpl in *. lia. }
    assert (Hlen : length (filter (λ s, Session.token s ≠ keepToken) (sessionsOf userId db))
                   = (length (sessionsOf userId db) - 1)%nat).
    { pose proof (length_filter_split (λ s, Session.token s ≠ keepToken)
                    (sessionsOf userId db)) as Hsplit.
      unfold keptSessions in Hkept. lia. }
    assert (Hall : sessionsToDelete userId keepToken db ≡ₚ
                   filter (λ s, Session.token s ≠ keepToken) (sessionsOf userId db)).
    { unfold sessionsToDelete, SESSION_CONFIG.MAX_SESSIONS_PER_USER.
      rewrite take_ge; [apply sortBy_Permutation|].
      rewrite (Permutation_length (sortBy_Permutation oldestFirst _)). lia. }
    f_equal.
    + by rewrite Hall.
    + f_equal. apply list_filter_iff. intros s. unfold survivesEviction. by rewrite Hall.
Qed.

Lemma enforceSessionLimit_is_invalidateAll_witness :
  enforceSessionLimit 7 "T2" Sample.sessionsDb
    = invalidateAllUserSessions 7 (Some "T2"%string) Sample.sessionsDb.
Proof.
  apply (enforceSessionLimit_is_invalidateAll 7 "T2" Sample.sessionsDb Sample.T2
           sample_uniqueTokens); [done| |done].
  change (Sample.T2 ∈ [Sample.T1; Sample.T2]). right. left.
Defined.

(** ** The sweep and the lazy deletion *)

Lemma uniqueTokens_cleanup (now : Z) (db : Db) :
  uniqueTokens db → uniqueTokens (snd (cleanupExpiredSessions now db)).
Proof. intros Hu. unfold uniqueTokens. simpl. by apply NoDup_fmap_filter. Qed.

(** X4. After [cleanupExpiredSessions] at an instant, in a store whose
    tokens are unique, [validateSessionToken] at that instant accepts every
    session that is left and deletes nothing; and the sweep does not change
    what [getUserActiveSessions] answers at that instant. *)
Theorem cleanup_agrees_with_validate (now : Z) (db : Db) :
  uniqueTokens db →
  let db' := snd (cleanupExpiredSessions now db) in
  (∀ s, s ∈ sessions db' →
        validateSessionToken (Session.token s) now db' = (Some s, db')) ∧
  (∀ userId, getUserActiveSessions userId now db' = getUserActiveSessions userId now db) ∧
  (∀ s, s ∈ sessions db → s ∉ sessions db' →
        fst (validateSessionToken (Session.token s) now db) = None).
Proof.
  intros Hu db'. split; [|split].
  - intros s Hs. apply validateSessionToken_live; [by apply uniqueTokens_cleanup|done|].
    apply cleanupExpiredSessions_removes in Hs as [_ ?]. lia.
  - intros userId. unfold getUserActiveSessions. subst db'. simpl. unfold deleteWhere.
    rewrite list_filter_filter. apply list_filter_iff. intros s. lia.
  - intros s Hs Hgone. rewrite validateSessionToken_expired; [done..|].
    destruct (decide (Session.expiresAt s ≤ now)); [done|].
    exfalso. apply Hgone. by apply cleanupExpiredSessions_removes.
Qed.

Lemma cleanup_agrees_with_validate_witness :
  validateSessionToken "T1" (Sample.t0 + 1000)
    (snd (cleanupExpiredSessions (Sample.t0 + 1000) Sample.sessionsDb))
  = (Some Sample.T1, snd (cleanupExpiredSessions (Sample.t0 + 1000) Sample.sessionsDb)).
Proof.
  apply (proj1 (cleanup_agrees_with_validate (Sample.t0 + 1000) Sample.sessionsDb
                  sample_uniqueTokens) Sample.T1).
  change (Sample.T1 ∈ [Sample.T1; Sample.T2]). left.
Defined.

(** X5. A token that [validateSessionToken] has rejected is rejected at
    every instant on the store that the rejection leaves; and a session
    accepted at an instant is accepted, with the store unchanged, at every
    earlier instant. *)
Theorem validateSessionToken_no_return (token : string) (now : Z) (db : Db) :
  (fst (validateSessionToken token now db) = None →
     ∀ now', validateSessionToken token now' (snd (validateSessionToken token now db))
             = (None, snd (validateSessionToken token now db))) ∧
  (∀ s, fst (validateSessionToken token now db) = Some s →
     ∀ now', now' ≤ now → validateSessionToken token now' db = (Some s, db)).
Proof.
  unfold validateSessionToken.
  destruct (selectGet (byToken token) (sessions db)) as [s0|] eqn:Hsel.
  - case_bool_decide as Hexp; cbn [fst snd].
    + split; [|done]. intros _ now'.
      assert (selectGet (byToken token) (sessions (deleteSessionsByToken token db)) = None)
        as ->; [|done].
      apply (selectGet_None (byToken token)). intros s Hs.
      by apply elem_of_deleteSessionsByToken in Hs as [_ ?].
    + split; [done|]. intros s [= <-] now' Hle.
      rewrite bool_decide_eq_false_2; [done|lia].
  - cbn [fst snd]. split; [|done]. intros _ now'. by rewrite Hsel.
Qed.

Lemma validateSessionToken_no_return_witness :
  validateSessionToken "T3" (Sample.t0 + 999999)
    (snd (validateSessionToken "T3" (Sample.t0 + 1000) Sample.sessionsDb))
  = (None, snd (validateSessionToken "T3" (Sample.t0 + 1000) Sample.sessionsDb)).
Proof.
  apply (proj1 (validateSessionToken_no_return "T3" (Sample.t0 + 1000) Sample.sessionsDb)).
  reflexivity.
Defined.

(** ** What the session manager never does *)

Lemma sublist_deleteSessionsByToken (token : string) (db : Db) :
  sessions (deleteSessionsByToken token db) `sublist_of` sessions db.
Proof. simpl. apply sublist_filter. Qed.

Lemma runSessionOp_shrinks (db : Db) (op : SessionOp) :
  sessions (runSessionOp db op) `sublist_of` sessions db ∧
  accounts (runSessionOp db op) = accounts db ∧
  transactions (runSessionOp db op) = transactions db.
Proof.
  destruct op as [token now|token|userId keepToken|now|userId exceptToken]; simpl.
  - unfold validateSessionToken. destruct (selectGet _ _); [|done].
    case_bool_decide; [|done]. split; [apply sublist_deleteSessionsByToken|done].
  - unfold invalidateSession. destruct (selectGet _ _); [|done].
    split; [apply sublist_deleteSessionsByToken|done].
  - unfold enforceSessionLimit. case_bool_decide; [done|].
    rewrite deleteEach_spec. simpl. split; [apply sublist_filter|done].
  - split; [apply sublist_filter|done].
  - unfold invalidateAllUserSessions. destruct (truthyString exceptToken); simpl.
    + rewrite deleteAllBut_deleteEach, deleteEach_spec. simpl.
      split; [apply sublist_filter|done].
    + split; [apply sublist_filter|done].
Qed.

(** X6. Whatever sequence of [validateSessionToken], [invalidateSession],
    [enforceSessionLimit], [cleanupExpiredSessions] and
    [invalidateAllUserSessions] calls runs on a store, the sessions left
    are sessions of the initial store, in their initial order: none is
    created or modified; the accounts and the ledger are untouched; and
    tokens stay unique if they were. *)
Theorem session_manager_only_deletes (ops : list SessionOp) (db : Db) :
  let db' := foldl runSessionOp db ops in
  sessions db' `sublist_of` sessions db ∧
  accounts db' = accounts db ∧
  transactions db' = transactions db ∧
  (uniqueTokens db → uniqueTokens db').
Proof.
  simpl.
  assert (H : sessions (foldl runSessionOp db ops) `sublist_of` sessions db ∧
              accounts (foldl runSessionOp db ops) = accounts db ∧
              transactions (foldl runSessionOp db ops) = transactions db).
  { revert db. induction ops as [|op ops IH]; intros db; simpl; [done|].
    destruct (IH (runSessionOp db op)) as (Hs & Ha & Ht).
    destruct (runSessionOp_shrinks db op) as (Hs1 & Ha1 & Ht1).
    split; [by etrans|]. split; congruence. }
  destruct H as (Hs & Ha & Ht). split; [done|]. split; [done|]. split; [done|].
  intros Hu. unfold uniqueTokens in *.
  eapply sublist_NoDup; [exact Hu|]. by apply fmap_sublist.
Qed.

(** X7. For a stored session, in a store whose tokens are unique, and at
    any instant other than its [expiresAt], [getSessionInfo] reports
    [isExpired] exactly when [validateSessionToken] rejects the token; and
    [getSessionInfo] answers nothing exactly when no session has the
    token. *)
Theorem getSessionInfo_agrees_off_boundary (db : Db) :
  uniqueTokens db →
  (∀ s now, s ∈ sessions db → now ≠ Session.expiresAt s →
     ∃ info, getSessionInfo (Session.token s) now db = Some info ∧
       (SessionInfo.isExpired info = true ↔
        fst (validateSessionToken (Session.token s) now db) = None)) ∧
  (∀ token now, getSessionInfo token now db = None ↔
                ∀ s, s ∈ sessions db → Session.token s ≠ token).
Proof.
  intros Hu. split.
  - intros s now Hs Hne. unfold getSessionInfo.
    rewrite (selectGet_byToken db s Hu Hs). eexists. split; [done|]. simpl.
    rewrite bool_decide_eq_true. split.
    + intros Hlt. rewrite validateSessionToken_expired; [done..|lia].
    + intros Hrej. destruct (decide (Session.expiresAt s < now)); [done|].
      rewrite validateSessionToken_live in Hrej; [done..|lia].
  - intros token now. unfold getSessionInfo. split.
    + destruct (selectGet (byToken token) (sessions db)) eqn:Hsel; [done|].
      intros _. by apply (selectGet_None (byToken token)).
    + intros Hno.
      assert (selectGet (byToken token) (sessions db) = None) as ->; [|done].
      by apply (selectGet_None (byToken token)).
Qed.

Lemma getSessionInfo_agrees_off_boundary_witness :
  ∃ info, getSessionInfo "T3" (Sample.t0 + 1001) Sample.sessionsDb = Some info ∧
    (SessionInfo.isExpired info = true ↔
     fst (validateSessionToken "T3" (Sample.t0 + 1001) Sample.sessionsDb) = None).
Proof.
  apply (proj1 (getSessionInfo_agrees_off_boundary Sample.sessionsDb sample_uniqueTokens)
           Sample.T3 (Sample.t0 + 1001)).
  - right. right. left.
  - discriminate.
Defined.

(** ** Random values *)



(** X9. [secureRandomNumeric] throws when [length <= 0]; otherwise it takes
    [length] values from the source and returns a string of exactly
    [length] characters, all decimal digits. *)
Theorem secureRandomNumeric_digits (length : Z) (g : Rng) :
  (length ≤ 0 →
     secureRandomNumeric length g = Throw (Error "length must be greater than 0")) ∧
  (0 < length →
     ∃ s, secureRandomNumeric length g
            = Ok (s, mkRng (tape g) (Z.to_nat length + cursor g)) ∧
          Z.of_nat (String.length s) = length ∧ allDigits s = true).
Proof.
  unfold secureRandomNumeric. split; intros H.
  - by rewrite bool_decide_eq_true_2.
  - rewrite bool_decide_eq_false_2 by lia.
    destruct (numericLoop_digits (Z.to_nat length) "" g) as (s & Hs & Hlen & Hall).
    exists s. split; [exact Hs|]. split; [lia|done].
Qed.

Lemma secureRandomNumeric_digits_witness :
  ∃ s, secureRandomNumeric 4 Sample.countingSource
         = Ok (s, mkRng (tape Sample.countingSource) (Z.to_nat 4 + 0)) ∧
       Z.of_nat (String.length s) = 4 ∧ allDigits s = true.
Proof. apply (proj2 (secureRandomNumeric_digits 4 Sample.countingSource)). lia. Defined.

Lemma hexDigit_isHexDigit (n : Z) : 0 ≤ n < 16 → isHexDigit (hexDigit n) = true.
Proof.
  intros Hn.
  assert (n = 0 ∨ n = 1 ∨ n = 2 ∨ n = 3 ∨ n = 4 ∨ n = 5 ∨ n = 6 ∨ n = 7 ∨ n = 8 ∨ n = 9 ∨
          n = 10 ∨ n = 11 ∨ n = 12 ∨ n = 13 ∨ n = 14 ∨ n = 15) as Hcases by lia.
  repeat (destruct Hcases as [->|Hcases]; [reflexivity|]). by subst n.
Qed.

Lemma randomBytes_spec (n : nat) (g : Rng) :
  length (fst (randomBytes n g)) = n ∧
  Forall (λ b, 0 ≤ b < 256) (fst (randomBytes n g)) ∧
  snd (randomBytes n g) = mkRng (tape g) (n + cursor g).
Proof.
  revert g. induction n as [|n IH]; intros g; simpl.
  - split; [done|]. split; [constructor|]. by destruct g.
  - destruct (IH (mkRng (tape g) (S (cursor g)))) as (Hlen & Hall & Hg).
    split; [by rewrite Hlen|]. split.
    + constructor; [|done]. apply Z.mod_pos_bound. lia.
    + rewrite Hg. simpl. f_equal. lia.
Qed.

Lemma bufferToHex_spec (bytes : list Z) :
  Forall (λ b, 0 ≤ b < 256) bytes →
  String.length (bufferToHex bytes) = (2 * length bytes)%nat ∧
  allHexDigits (bufferToHex bytes) = true.
Proof.
  induction 1 as [|b bytes Hb _ [IHlen IHall]]; [done|]. simpl. split.
  - rewrite IHlen. lia.
  - unfold allHexDigits in *. simpl.
    rewrite !hexDigit_isHexDigit, IHall; [done| |].
    + apply Z.mod_pos_bound. lia.
    + split; [apply Z.div_pos; lia|]. apply Z.div_lt_upper_bound; lia.
Qed.

Lemma sliceFromStart_spec (n : nat) (s : string) :
  (n ≤ String.length s)%nat →
  String.length (sliceFromStart n s) = n ∧
  (allHexDigits s = true → allHexDigits (sliceFromStart n s) = true).
Proof.
  revert s. induction n as [|n IH]; intros s Hn; [by destruct s|].
  destruct s as [|c s]; simpl in *; [lia|].
  destruct (IH s) as [Hlen Hall]; [lia|]. split; [by rewrite Hlen|].
  unfold allHexDigits in *. simpl. intros [Hc Hs]%andb_true_iff.
  by rewrite Hc, Hall.
Qed.

(** X10. [secureRandomHex] throws when [length <= 0]; otherwise it takes
    [ceil(length / 2)] bytes from the source and returns a string of
    exactly [length] characters, all lowercase hexadecimal digits; so a
    transaction id is made of 16 such digits. *)
Theorem secureRandomHex_digits (length : Z) (g : Rng) :
  (length ≤ 0 →
     secureRandomHex length g = Throw (Error "length must be greater than 0")) ∧
  (0 < length →
     ∃ s, secureRandomHex length g
            = Ok (s, mkRng (tape g) (Z.to_nat ((length + 1) `div` 2) + cursor g)) ∧
          Z.of_nat (String.length s) = length ∧ allHexDigits s = true) ∧
  (∃ s g', generateSecureTransactionId g = Ok (s, g') ∧
           String.length s = 16%nat ∧ allHexDigits s = true).
Proof.
  assert (Hpos : 0 < length →
     ∃ s, secureRandomHex length g
            = Ok (s, mkRng (tape g) (Z.to_nat ((length + 1) `div` 2) + cursor g)) ∧
          Z.of_nat (String.length s) = length ∧ allHexDigits s = true).
  { intros H. unfold secureRandomHex. rewrite bool_decide_eq_false_2 by lia.
    destruct (randomBytes_spec (Z.to_nat ((length + 1) `div` 2)) g) as (Hlen & Hall & Hg).
    destruct (bufferToHex_spec _ Hall) as [Hhexlen Hhex].
    destruct (sliceFromStart_spec (Z.to_nat length)
                (bufferToHex (fst (randomBytes (Z.to_nat ((length + 1) `div` 2)) g))))
      as [Hslen Hsall].
    { rewrite Hhexlen, Hlen.
      pose proof (Z.div_mod (length + 1) 2 ltac:(lia)).
      pose proof (Z.mod_pos_bound (length + 1) 2 ltac:(lia)).
      assert (0 ≤ (length + 1) `div` 2) by (apply Z.div_pos; lia). lia. }
    eexists. split; [by rewrite Hg|]. split; [lia|by apply Hsall]. }
  split; [|split; [exact Hpos|]].
  - intros H. unfold secureRandomHex. by rewrite bool_decide_eq_true_2.
  - clear Hpos. unfold generateSecureTransactionId, secureRandomHex.
    rewrite bool_decide_eq_false_2 by lia.
    change (Z.to_nat ((16 + 1) `div` 2)) with 8%nat. change (Z.to_nat 16) with 16%nat.
    destruct (randomBytes_spec 8 g) as (Hlen & Hall & Hg).
    destruct (bufferToHex_spec _ Hall) as [Hhexlen Hhex].
    destruct (sliceFromStart_spec 16 (bufferToHex (fst (randomBytes 8 g))))
      as [Hslen Hsall]; [rewrite Hhexlen, Hlen; lia|].
    eexists _, _. split; [done|]. split; [done|by apply Hsall].
Qed.

Lemma secureRandomHex_digits_witness :
  ∃ s, secureRandomHex 5 Sample.countingSource
         = Ok (s, mkRng (tape Sample.countingSource) (Z.to_nat ((5 + 1) `div` 2) + 0)) ∧
       Z.of_nat (String.length s) = 5 ∧ allHexDigits s = true.
Proof.
  apply (proj1 (proj2 (secureRandomHex_digits 5 Sample.countingSource))). lia.
Defined.

(** ** What the account router keeps *)

Lemma addToBalance_identity (accountId amount : Z) (a : Account.t) :
  accountIdentity (addToBalance accountId amount a) = accountIdentity a.
Proof. unfold addToBalance. by destruct (decide (Account.id a = accountId)). Qed.

Lemma fmap_addToBalance {B} (f : Account.t → B) (accountId amount : Z)
    (accs : list Account.t) :
  (∀ a, f (addToBalance accountId amount a) = f a) →
  f <$> (addToBalance accountId amount <$> accs) = f <$> accs.
Proof.
  intros Hf. rewrite <- list_fmap_compose. apply list_fmap_ext. intros _ a _. apply Hf.
Qed.

Lemma addToBalance_column {B} (col : Z * Z * string * AccountType * string → B)
    (accountId amount : Z) (a : Account.t) :
  col (accountIdentity (addToBalance accountId amount a)) = col (accountIdentity a).
Proof. by rewrite addToBalance_identity. Qed.








Lemma runOps_invariant (I : Db → Prop) :
  (∀ op db db', I db → runOp op db = Some db' → I db') →
  ∀ ops db db', I db → runOps ops db = Some db' → I db'.
Proof.
  intros Hstep ops. induction ops as [|op ops IH]; intros db db' HI Hrun; simpl in Hrun.
  - by injection Hrun as <-.
  - destruct (runOp op db) as [db1|] eqn:Hop; [|done].
    apply (IH db1); [by eapply Hstep|done].
Qed.

Lemma pickAccountNumber_tenDigits (fuel : nat) (g : Rng) (db : Db) (accountNumber : string)
    (g' : Rng) :
  pickAccountNumber fuel g db = Some (Ok (accountNumber, g')) →
  tenDigits accountNumber = true.
Proof.
  revert g. induction fuel as [|fuel IH]; intros g; [done|]. cbn [pickAccountNumber].
  unfold generateAccountNumber.
  destruct (generateSecureAccountNumber_tenDigits g) as (n & -> & Hn).
  destruct (selectGet _ (accounts db)); [apply IH|]. by intros [= <- <-].
Qed.

(** What a call of [createAccount] that has returned did: nothing, with an
    error; or the insertion of a fresh row for the caller. *)
Lemma createAccount_inserted (accountType : AccountType) (user : Z) (fuel : nat) (g : Rng)
    (db : Db) (r : Result Account.t) (db' : Db) (g' : Rng) :
  createAccount accountType user fuel id g db = Some (r, db', g') →
  db' = db ∨
  ∃ accountNumber,
    db' = insertAccount user accountNumber accountType 0 "active" db ∧
    (∀ a, a ∈ accounts db →
          ¬ (Account.userId a = user ∧ Account.accountType a = accountType)) ∧
    (∀ a, a ∈ accounts db → Account.accountNumber a ≠ accountNumber) ∧
    tenDigits accountNumber = true.
Proof.
  unfold createAccount.
  destruct (selectGet (λ a, Account.userId a = user ∧ Account.accountType a = accountType)
              (accounts db)) as [existing|] eqn:Hex.
  { intros [= <- <- <-]. by left. }
  destruct (pickAccountNumber fuel g db) as [[[accountNumber g1]|e]|] eqn:Hpick; [| |done].
  - intros H. right. exists accountNumber.
    assert (db' = insertAccount user accountNumber accountType 0 "active" db) as ->.
    { by destruct (selectGet _ (accounts (id _))); injection H as <- <- <-. }
    split; [done|]. split; [|split].
    + by apply (selectGet_None
                  (λ a, Account.userId a = user ∧ Account.accountType a = accountType)).
    + by eapply pickAccountNumber_fresh.
    + by eapply pickAccountNumber_tenDigits.
  - intros [= <- <- <-]. by left.
Qed.

Lemma NoDup_fmap_snoc {A B} (f : A → B) (l : list A) (x : A) :
  NoDup (f <$> l) → (∀ y, y ∈ l → f y ≠ f x) → NoDup (f <$> (l ++ [x])).
Proof.
  intros Hnd Hfresh. rewrite fmap_app. apply NoDup_app. split; [done|]. split.
  - intros b (y & -> & Hy)%list_elem_of_fmap Hin. simpl in Hin.
    apply list_elem_of_singleton in Hin. by apply (Hfresh y).
  - simpl. apply NoDup_singleton.
Qed.

Lemma accountTypes_at_most_two (l : list AccountType) : NoDup l → (length l ≤ 2)%nat.
Proof.
  destruct l as [|x [|y [|z l]]]; simpl; [lia..|]. intros Hnd. exfalso.
  apply NoDup_cons in Hnd as [Hx Hnd]. apply NoDup_cons in Hnd as [Hy _].
  apply not_elem_of_cons in Hx as [Hxy Hx]. apply not_elem_of_cons in Hx as [Hxz _].
  apply not_elem_of_cons in Hy as [Hyz _]. destruct x, y, z; congruence.
Qed.

Lemma keys_kept (op : Op) (db db' : Db) :
  uniqueAccountIds db ∧ uniqueAccountNumbers db ∧ oneAccountPerType db →
  runOp op db = Some db' →
  uniqueAccountIds db' ∧ uniqueAccountNumbers db' ∧ oneAccountPerType db'.
Proof.
  intros (Hid & Hnum & Hty) Hop.
  destruct op as [accountType user fuel g|input user now fails]; simpl in Hop.
  - destruct (createAccount accountType user fuel id g db) as [[[r d] g']|] eqn:Hc; [|done].
    injection Hop as ->.
    apply createAccount_inserted in Hc
      as [->|(accountNumber & -> & Hfree & Hfresh & _)]; [done|].
    unfold uniqueAccountIds, uniqueAccountNumbers, oneAccountPerType, insertAccount. simpl.
    split; [|split]; apply NoDup_fmap_snoc; try done.
    + intros y Hy Heq. simpl in Heq.
      apply (nextId_fresh (Account.id <$> accounts db)). rewrite <- Heq.
      by apply list_elem_of_fmap_2.
    + intros y Hy [= Hu Ht]. by apply (Hfree y).
  - injection Hop as <-.
    destruct (fundAccount_cases input user now fails db)
      as [[e ->]|(out & account & -> & _)]; [done|].
    unfold uniqueAccountIds, uniqueAccountNumbers, oneAccountPerType. simpl.
    rewrite !fmap_addToBalance; [done|..]; intros a; unfold addToBalance;
      by destruct (decide (Account.id a = FundInput.accountId input)).
Qed.

(** X11. In every store reached from the empty store by [createAccount] and
    [fundAccount] calls, account ids are unique, account numbers are
    unique, and an owner has at most one account of each type; so
    [getAccounts] never returns more than two rows. *)
Theorem account_keys_are_unique (ops : list Op) (db : Db) :
  runOps ops emptyDb = Some db →
  uniqueAccountIds db ∧ uniqueAccountNumbers db ∧ oneAccountPerType db ∧
  ∀ user, (length (getAccounts user db) ≤ 2)%nat.
Proof.
  intros Hrun.
  assert (Hkeys : uniqueAccountIds db ∧ uniqueAccountNumbers db ∧ oneAccountPerType db).
  { apply (runOps_invariant
             (λ d, uniqueAccountIds d ∧ uniqueAccountNumbers d ∧ oneAccountPerType d)
             keys_kept ops emptyDb db); [|done].
    repeat split; apply NoDup_nil_2. }
  destruct Hkeys as (Hid & Hnum & Hty). do 3 (split; [done|]).
  intros user. unfold getAccounts.
  rewrite <- (length_fmap Account.accountType). apply accountTypes_at_most_two.
  apply (NoDup_fmap_1 (pair user)). rewrite <- list_fmap_compose.
  assert ((pair user ∘ Account.accountType) <$> filter (λ a, Account.userId a = user) (accounts db)
          = (λ a, (Account.userId a, Account.accountType a))
              <$> filter (λ a, Account.userId a = user) (accounts db)) as ->.
  { apply list_fmap_ext. intros i a Ha. simpl.
    apply list_elem_of_lookup_2, list_elem_of_filter in Ha as [<- _]. done. }
  by apply NoDup_fmap_filter.
Qed.

Lemma account_keys_are_unique_witness :
  uniqueAccountIds Sample.ledgerAfter ∧ uniqueAccountNumbers Sample.ledgerAfter ∧
  oneAccountPerType Sample.ledgerAfter ∧
  ∀ user, (length (getAccounts user Sample.ledgerAfter) ≤ 2)%nat.
Proof.
  apply (account_keys_are_unique Sample.ledgerOps Sample.ledgerAfter).
  vm_compute. reflexivity.
Defined.

Lemma wellFormed_kept (op : Op) (db db' : Db) :
  accountsWellFormed db ∧ depositsOnly db →
  runOp op db = Some db' →
  accountsWellFormed db' ∧ depositsOnly db'.
Proof.
  intros (Hacc & Hdep) Hop.
  destruct op as [accountType user fuel g|input user now fails]; simpl in Hop.
  - destruct (createAccount accountType user fuel id g db) as [[[r d] g']|] eqn:Hc; [|done].
    injection Hop as ->.
    apply createAccount_inserted in Hc as [->|(accountNumber & -> & _ & _ & Hten)]; [done|].
    split; [|done]. intros a Ha. simpl in Ha.
    apply elem_of_app in Ha as [Ha|Ha]; [by apply Hacc|].
    by apply list_elem_of_singleton in Ha as ->.
  - injection Hop as <-.
    destruct (fundAccount_cases input user now fails db)
      as [[e ->]|(out & account & -> & Hamt & _)]; [done|].
    split.
    + intros a' (a & -> & Ha)%list_elem_of_fmap. destruct (Hacc a Ha) as (Hst & Hbal & Hten).
      unfold addToBalance. destruct (decide _); simpl; [|done]. split; [done|]. split; [lia|done].
    + intros t Ht. simpl in Ht.
      apply elem_of_app in Ht as [Ht|Ht]; [by apply Hdep|].
      by apply list_elem_of_singleton in Ht as ->.
Qed.

(** X13. In every store reached from the empty store by [createAccount] and
    [fundAccount] calls, every account is active, has a balance that is not
    negative and a number of ten digits; every ledger entry is a completed
    deposit of a positive amount on an account of the store; hence no
    funding call on such a store is refused for an inactive account. *)
Theorem reachable_ledger_is_well_formed (ops : list Op) (db : Db) :
  runOps ops emptyDb = Some db →
  accountsWellFormed db ∧ depositsOnly db ∧ ledgerOwned db ∧
  ∀ input user now fails,
    fst (fundAccount input user now fails db)
      ≠ Throw (TRPCError BAD_REQUEST "Account is not active").
Proof.
  intros Hrun.
  assert (Hwf : accountsWellFormed db ∧ depositsOnly db).
  { apply (runOps_invariant (λ d, accountsWellFormed d ∧ depositsOnly d)
             wellFormed_kept ops emptyDb db); [|done].
    split; intros x Hx; by apply elem_of_nil in Hx. }
  destruct Hwf as [Hacc Hdep]. split; [done|]. split; [done|]. split.
  - assert (Hbal : balanced emptyDb) by (intros x Hx; by apply elem_of_nil in Hx).
    assert (Hown : ledgerOwned emptyDb) by (intros x Hx; by apply elem_of_nil in Hx).
    by destruct (runOps_keeps_ledger ops emptyDb db Hbal Hown Hrun).
  - intros input user now fails. unfold fundAccount.
    case_bool_decide; [done|].
    destruct (selectGet _ (accounts db)) as [account|] eqn:Hsel; [|done].
    apply selectGet_Some in Hsel as [Hin _]. destruct (Hacc account Hin) as [Hst _].
    rewrite bool_decide_eq_false_2 by (by intros []).
    unfold dbTransaction. by destruct (fundUnit _ _ _ _ db) as [[result d]|].
Qed.

Lemma reachable_ledger_is_well_formed_witness :
  accountsWellFormed Sample.ledgerAfter ∧ depositsOnly Sample.ledgerAfter ∧
  ledgerOwned Sample.ledgerAfter ∧
  ∀ input user now fails,
    fst (fundAccount input user now fails Sample.ledgerAfter)
      ≠ Throw (TRPCError BAD_REQUEST "Account is not active").
Proof.
  apply (reachable_ledger_is_well_formed Sample.ledgerOps Sample.ledgerAfter).
  vm_compute. reflexivity.
Defined.

(** ** Refused funding calls *)

(** X14. [fundAccount] refuses, and leaves the store as it was: an amount
    that is not positive (input rejected); an account id that has no row
    under the caller's id, in particular the account of another owner
    ([NOT_FOUND]); an account of the caller that is not active
    ([BAD_REQUEST]). *)
Theorem fundAccount_refusals (input : FundInput.t) (user now : Z) (fails : FundStep → bool)
    (db : Db) :
  (FundInput.amount input ≤ 0 →
     fundAccount input user now fails db = (Throw InputRejected, db)) ∧
  (0 < FundInput.amount input →
   (∀ a, a ∈ accounts db → Account.id a = FundInput.accountId input →
         Account.userId a ≠ user) →
     fundAccount input user now fails db
       = (Throw (TRPCError NOT_FOUND "Account not found"), db)) ∧
  (0 < FundInput.amount input → uniqueAccountIds db →
   ∀ account, account ∈ accounts db → Account.id account = FundInput.accountId input →
     Account.userId account = user → Account.status account ≠ "active"%string →
     fundAccount input user now fails db
       = (Throw (TRPCError BAD_REQUEST "Account is not active"), db)).
Proof.
  unfold fundAccount. split; [|split].
  - intros Hamt. by rewrite bool_decide_eq_true_2.
  - intros Hamt Hforeign. rewrite bool_decide_eq_false_2 by lia.
    assert (selectGet (λ a, Account.id a = FundInput.accountId input ∧ Account.userId a = user)
              (accounts db) = None) as ->; [|done].
    apply (selectGet_None
             (λ a, Account.id a = FundInput.accountId input ∧ Account.userId a = user)).
    intros a Ha [Hid Hu]. by apply (Hforeign a).
  - intros Hamt Hkey account Hin Hid Hu Hst. rewrite bool_decide_eq_false_2 by lia.
    assert (selectGet (λ a, Account.id a = FundInput.accountId input ∧ Account.userId a = user)
              (accounts db) = Some account) as ->.
    { apply (selectGet_by_key Account.id); [done..|]. intros y [Hy _]. congruence. }
    by rewrite bool_decide_eq_true_2.
Qed.

Lemma fundAccount_refusals_witness :
  fundAccount Sample.fund500 8 Sample.t0 Sample.noFailure Sample.ledgerDb
    = (Throw (TRPCError NOT_FOUND "Account not found"), Sample.ledgerDb).
Proof.
  apply (proj1 (proj2 (fundAccount_refusals Sample.fund500 8 Sample.t0 Sample.noFailure
                         Sample.ledgerDb))); [reflexivity|].
  intros a ->%list_elem_of_singleton _. discriminate.
Defined.

(** ** Funding calls one after the other *)







(** ** Reading back what was written *)

Lemma filter_fmap_commute {A B} (f : A → B) (P : B → Prop) (Q : A → Prop)
    `{!∀ x, Decision (P x), !∀ x, Decision (Q x)} (l : list A) :
  (∀ x, P (f x) ↔ Q x) → filter P (f <$> l) = f <$> filter Q l.
Proof.
  intros HPQ. induction l as [|x l IH]; [done|].
  rewrite fmap_cons, !filter_cons.
  destruct (decide (P (f x))) as [HP|HP], (decide (Q x)) as [HQ|HQ].
  - by rewrite fmap_cons, IH.
  - exfalso. by apply HQ, HPQ.
  - exfalso. by apply HP, HPQ.
  - done.
Qed.

Lemma sortBy_fmap {A B} (f : A → B) (leB : B → B → bool) (leA : A → A → bool)
    (l : list A) :
  (∀ x y, leB (f x) (f y) = leA x y) → sortBy leB (f <$> l) = f <$> sortBy leA l.
Proof.
  intros Hle.
  assert (Hins : ∀ x l, insertSorted leB (f x) (f <$> l) = f <$> insertSorted leA x l).
  { intros x l0. induction l0 as [|y l0 IH]; [done|].
    rewrite fmap_cons. cbn [insertSorted]. rewrite Hle.
    destruct (leA x y); [done|]. rewrite fmap_cons. f_equal. apply IH. }
  induction l as [|x l IH]; [done|].
  rewrite fmap_cons. unfold sortBy in *. cbn [foldr]. rewrite IH. apply Hins.
Qed.

(** A row that is before every other in the order comes first, wherever it
    is in the list. *)
Lemma sortBy_snoc_first {A} (le : A → A → bool) (l : list A) (x : A) :
  (∀ y, y ∈ l → le y x = false) → sortBy le (l ++ [x]) = x :: sortBy le l.
Proof.
  intros Hfirst. induction l as [|y l IH]; [done|].
  simpl. change (foldr (insertSorted le) [] (l ++ [x])) with (sortBy le (l ++ [x])).
  rewrite IH by (intros z Hz; apply Hfirst; by right).
  simpl. by rewrite (Hfirst y) by (by left).
Qed.

Lemma filter_by_key {A K} `{EqDecision K} (key : A → K) (l : list A) (x : A) :
  NoDup (key <$> l) → x ∈ l → filter (λ a, key x = key a) l = [x].
Proof.
  induction l as [|y l IH]; intros Hnd Hx; [by apply elem_of_nil in Hx|].
  rewrite fmap_cons in Hnd. apply NoDup_cons in Hnd as [Hy Hnd].
  rewrite filter_cons. apply elem_of_cons in Hx as [->|Hx].
  - rewrite decide_True by done. f_equal. apply filter_keeps_none.
    intros z Hz Heq. apply Hy. rewrite Heq. by apply list_elem_of_fmap_2.
  - rewrite decide_False; [by apply IH|].
    intros Heq. apply Hy. rewrite <- Heq. by apply list_elem_of_fmap_2.
Qed.

Lemma leftJoinAccounts_app (txs1 txs2 : list Transaction.t) (accs : list Account.t) :
  leftJoinAccounts (txs1 ++ txs2) accs
  = leftJoinAccounts txs1 accs ++ leftJoinAccounts txs2 accs.
Proof. unfold leftJoinAccounts. by rewrite fmap_app, concat_app. Qed.

Lemma leftJoinAccounts_addToBalance (accountId amount : Z) (txs : list Transaction.t)
    (accs : list Account.t) :
  leftJoinAccounts txs (addToBalance accountId amount <$> accs)
  = withBalanceAdded accountId amount <$> leftJoinAccounts txs accs.
Proof.
  unfold leftJoinAccounts. induction txs as [|t txs IH]; [done|].
  rewrite !fmap_cons. simpl. rewrite fmap_app, IH. f_equal.
  unfold joinRows.
  rewrite (filter_fmap_commute (addToBalance accountId amount)
             (λ a, Transaction.accountId t = Account.id a)
             (λ a, Transaction.accountId t = Account.id a)).
  - destruct (filter _ accs) as [|a matches]; [done|].
    rewrite !fmap_cons. unfold withBalanceAdded at 1. simpl. f_equal.
    rewrite <- !list_fmap_compose. by apply list_fmap_ext.
  - intros a. unfold addToBalance. by destruct (decide (Account.id a = accountId)).
Qed.

Lemma projectRow_withBalanceAdded (accountId amount : Z)
    (r : Transaction.t * option Account.t) :
  projectRow (withBalanceAdded accountId amount r) = projectRow r.
Proof.
  destruct r as [t [a|]]; [|done]. unfold projectRow, withBalanceAdded. simpl.
  unfold addToBalance. by destruct (decide (Account.id a = accountId)).
Qed.

(** The rows that [getTransactions] builds, before the ownership check. *)
Lemma rows_after_balance_update (accountId target amount : Z) (txs : list Transaction.t)
    (accs : list Account.t) :
  projectRow <$>
    sortBy (λ r1 r2, newestFirst (fst r1) (fst r2))
      (filter (λ r, Transaction.accountId (fst r) = accountId)
              (leftJoinAccounts txs (addToBalance target amount <$> accs)))
  = projectRow <$>
      sortBy (λ r1 r2, newestFirst (fst r1) (fst r2))
        (filter (λ r, Transaction.accountId (fst r) = accountId)
                (leftJoinAccounts txs accs)).
Proof.
  rewrite leftJoinAccounts_addToBalance.
  rewrite (filter_fmap_commute (withBalanceAdded target amount)
             (λ r, Transaction.accountId (fst r) = accountId)
             (λ r, Transaction.accountId (fst r) = accountId)) by done.
  rewrite (sortBy_fmap (withBalanceAdded target amount)
             (λ r1 r2, newestFirst (fst r1) (fst r2))
             (λ r1 r2, newestFirst (fst r1) (fst r2))) by done.
  rewrite <- list_fmap_compose. apply list_fmap_ext. intros _ r _.
  apply projectRow_withBalanceAdded.
Qed.

(** X17. After a funding call that succeeds at an instant later than every
    ledger entry of the account, in a store where account ids are a key, the
    transaction that [fundAccount] returns is the row it has inserted, and
    [getTransactions] on the account returns that row first, followed by
    the rows it returned before the call. *)
Theorem fundAccount_then_getTransactions (input : FundInput.t) (user now : Z) (db : Db)
    (account : Account.t) (rows : list TransactionRow.t) :
  uniqueAccountIds db →
  0 < FundInput.amount input →
  account ∈ accounts db →
  Account.id account = FundInput.accountId input →
  Account.userId account = user →
  Account.status account = "active"%string →
  (∀ t, t ∈ transactions db → Transaction.accountId t = FundInput.accountId input →
        Transaction.createdAt t < now) →
  getTransactions (FundInput.accountId input) user db = Ok rows →
  ∃ out,
    fundAccount input user now (λ _, false) db = (Ok out, funded input now db) ∧
    FundOutput.transaction out = Some (depositRow input now db) ∧
    getTransactions (FundInput.accountId input) user (funded input now db)
      = Ok (projectRow (depositRow input now db, Some account) :: rows).
Proof.
  intros Hkey Hamt Hin Hid Hu Hst Hnew Hrows.
  assert (Hsel : selectGet (λ a, Account.id a = FundInput.accountId input ∧
                                 Account.userId a = user) (accounts db) = Some account).
  { apply (selectGet_by_key Account.id); [done..|]. intros y [Hy _]. congruence. }
  assert (Hfirst : ∀ l : list Transaction.t,
            (∀ t, t ∈ l → Transaction.createdAt t < now) →
            sortBy newestFirst (l ++ [depositRow input now db])
            = depositRow input now db :: sortBy newestFirst l).
  { intros l Hl. apply sortBy_snoc_first. intros y Hy. unfold newestFirst. simpl.
    apply Z.leb_gt. by apply Hl. }
  unfold fundAccount. rewrite bool_decide_eq_false_2 by lia. rewrite Hsel.
  rewrite bool_decide_eq_false_2 by (by intros []). unfold dbTransaction.
  destruct (fundUnit_runs input now (λ _, false) db (λ _, eq_refl)) as [result E].
  rewrite E. apply fundUnit_commits in E as (_ & _ & Htx & _).
  eexists. split; [done|]. simpl. split.
  - rewrite Htx. simpl. rewrite filter_app, filter_cons, filter_nil.
    rewrite decide_True by done. rewrite Hfirst; [done|].
    intros t [Ht1 Ht2]%list_elem_of_filter. by apply Hnew.
  - unfold getTransactions in *. rewrite Hsel in Hrows. injection Hrows as <-. simpl.
    assert (selectGet (λ a, Account.id a = FundInput.accountId input ∧ Account.userId a = user)
              (addToBalance (FundInput.accountId input) (FundInput.amount input)
                 <$> accounts db) =
            Some (addToBalance (FundInput.accountId input) (FundInput.amount input) account))
      as ->.
    { apply (selectGet_by_key Account.id).
      - rewrite fmap_addToBalance; [done|]. intros a. unfold addToBalance. by destruct (decide _).
      - by apply list_elem_of_fmap_2.
      - unfold addToBalance. destruct (decide _); simpl; done.
      - intros y [Hy _]. unfold addToBalance. destruct (decide _); simpl; congruence. }
    f_equal. rewrite rows_after_balance_update.
    rewrite leftJoinAccounts_app, filter_app.
    assert (Hnewrow : leftJoinAccounts [depositRow input now db] (accounts db)
                      = [(depositRow input now db, Some account)]).
    { unfold leftJoinAccounts. simpl. rewrite app_nil_r. unfold joinRows. simpl.
      rewrite <- Hid. by rewrite (filter_by_key Account.id (accounts db) account). }
    rewrite Hnewrow, filter_cons, filter_nil. rewrite decide_True by done.
    rewrite sortBy_snoc_first; [done|].
    intros r [Hr1 Hr2]%list_elem_of_filter. unfold newestFirst. simpl.
    apply Z.leb_gt. apply Hnew; [|done]. by apply elem_of_leftJoinAccounts in Hr2.
Qed.

Lemma fundAccount_then_getTransactions_witness :
  ∃ out,
    fundAccount Sample.fund500 7 Sample.t0 (λ _, false) Sample.ledgerDb
      = (Ok out, funded Sample.fund500 Sample.t0 Sample.ledgerDb) ∧
    FundOutput.transaction out = Some (depositRow Sample.fund500 Sample.t0 Sample.ledgerDb) ∧
    getTransactions 1 7 (funded Sample.fund500 Sample.t0 Sample.ledgerDb)
      = Ok (projectRow (depositRow Sample.fund500 Sample.t0 Sample.ledgerDb, Some Sample.A1)
              :: [projectRow (Sample.D1, Some Sample.A1)]).
Proof.
  apply (fundAccount_then_getTransactions Sample.fund500 7 Sample.t0 Sample.ledgerDb
           Sample.A1 [projectRow (Sample.D1, Some Sample.A1)]); try reflexivity.
  - unfold uniqueAccountIds. apply (bool_decide_unpack _). by vm_compute.
  - by left.
  - intros t ->%list_elem_of_singleton _. unfold Sample.D1, Sample.t0. simpl. lia.
Defined.

Lemma createAccount_conflict (accountType : AccountType) (user : Z) (fuel : nat)
    (others : Db → Db) (g : Rng) (db : Db) :
  (∃ a, a ∈ accounts db ∧ Account.userId a = user ∧ Account.accountType a = accountType) →
  createAccount accountType user fuel others g db =
    Some (Throw (TRPCError CONFLICT
                   ("You already have a " +:+ accountTypeName accountType +:+ " account")),
          db, g).
Proof.
  intros Hex. unfold createAccount.
  by destruct (selectGet_is_Some
                 (λ a, Account.userId a = user ∧ Account.accountType a = accountType)
                 (accounts db) Hex) as [a0 ->].
Qed.

(** X16. After a [createAccount] call that returns an account: the account
    has a balance of 0, is active, belongs to the caller and has the asked
    type; [getAccounts] of the caller returns its previous rows followed by
    that account, and [getAccounts] of any other owner is unchanged; any
    further [createAccount] of the caller for that type throws [CONFLICT]
    and changes nothing; and, the ledger entries of the store all belonging
    to accounts of the store, [getTransactions] on the new account returns
    no row. *)
Theorem createAccount_then_read (accountType : AccountType) (user : Z) (fuel : nat)
    (g : Rng) (db : Db) (account : Account.t) (db' : Db) (g' : Rng) :
  createAccount accountType user fuel id g db = Some (Ok account, db', g') →
  Account.balance account = 0 ∧ Account.status account = "active"%string ∧
  Account.userId account = user ∧ Account.accountType account = accountType ∧
  accounts db' = accounts db ++ [account] ∧
  getAccounts user db' = getAccounts user db ++ [account] ∧
  (∀ other, other ≠ user → getAccounts other db' = getAccounts other db) ∧
  (∀ fuel2 g2,
     createAccount accountType user fuel2 id g2 db' =
       Some (Throw (TRPCError CONFLICT
                      ("You already have a " +:+ accountTypeName accountType +:+ " account")),
             db', g2)) ∧
  (ledgerOwned db → getTransactions (Account.id account) user db' = Ok []).
Proof.
  intros Hc.
  pose proof Hc as Hins. apply createAccount_inserted in Hins.
  pose proof Hc as Hcases. apply createAccount_cases in Hcases.
  destruct Hcases as [[_ [e ?]]|(accountNumber & Hpick & Hdb' & Hr)]; [done|].
  destruct Hins as [->|(n' & Hdb'' & Hfree & _)].
  { exfalso. simpl in Hdb'. apply (f_equal (λ d, length (accounts d))) in Hdb'.
    simpl in Hdb'. rewrite length_app in Hdb'. simpl in Hdb'. lia. }
  pose proof (createAccount_alone accountType user fuel g db accountNumber g' Hfree Hpick)
    as Halone.
  rewrite Hc in Halone. injection Halone as -> ->. clear Hc Hr Hdb' Hdb''.
  do 5 (split; [reflexivity|]). split; [|split; [|split]].
  - unfold getAccounts. simpl. rewrite filter_app, filter_cons, filter_nil.
    by rewrite decide_True.
  - intros other Hother. unfold getAccounts. simpl.
    rewrite filter_app, filter_cons, filter_nil.
    rewrite decide_False by (simpl; congruence). by rewrite app_nil_r.
  - intros fuel2 g2.
    apply createAccount_conflict.
    eexists. split; [simpl; apply elem_of_app; right; by left|done].
  - intros Hown. unfold getTransactions. simpl.
    set (newId := nextId (Account.id <$> accounts db)).
    assert (is_Some (selectGet (λ a, Account.id a = newId ∧ Account.userId a = user)
                       (accounts db ++
                        [Account.mk newId user accountNumber accountType 0 "active"])))
      as [a0 ->].
    { apply selectGet_is_Some. eexists. split; [apply elem_of_app; right; by left|done]. }
    f_equal. rewrite filter_keeps_none; [done|].
    intros r Hr Heq. apply elem_of_leftJoinAccounts in Hr.
    apply (nextId_fresh (Account.id <$> accounts db)). fold newId. rewrite <- Heq.
    by apply Hown.
Qed.

Lemma createAccount_then_read_witness :
  getAccounts 7 (insertAccount 7 "0123456789" savings 0 "active" Sample.ledgerDb)
    = getAccounts 7 Sample.ledgerDb ++ [Account.mk 2 7 "0123456789" savings 0 "active"] ∧
  getTransactions 2 7 (insertAccount 7 "0123456789" savings 0 "active" Sample.ledgerDb) = Ok [].
Proof.
  assert (Hc : createAccount savings 7 1 id Sample.countingSource Sample.ledgerDb =
               Some (Ok (Account.mk 2 7 "0123456789" savings 0 "active"),
                     insertAccount 7 "0123456789" savings 0 "active" Sample.ledgerDb,
                     advance 1 Sample.countingSource)) by reflexivity.
  destruct (createAccount_then_read savings 7 1 Sample.countingSource Sample.ledgerDb _ _ _ Hc)
    as (_ & _ & _ & _ & _ & Hget & _ & _ & Htx).
  split; [exact Hget|]. apply Htx.
  intros t ->%list_elem_of_singleton. by left.
Defined.

(** ** Cookies *)

Lemma string_app_nil_r (s : string) : s +:+ "" = s.
Proof.
  induction s as [|a s IH]; [done|].
  change (String a (s +:+ "") = String a s). by rewrite IH.
Qed.

Lemma hasChar_app (c : Ascii.ascii) (s1 s2 : string) :
  hasChar c (s1 +:+ s2) = hasChar c s1 || hasChar c s2.
Proof.
  induction s1 as [|a s1 IH]; [done|].
  change (hasChar c (String a (s1 +:+ s2)) = hasChar c (String a s1) || hasChar c s2).
  simpl. by destruct (decide (a = c)).
Qed.

Lemma splitSemicolonSpace_piece (a rest : string) :
  hasChar semicolonChar a = false →
  splitSemicolonSpace (a +:+ String semicolonChar (String spaceChar rest))
  = a :: splitSemicolonSpace rest.
Proof.
  induction a as [|x a IH]; intros Hno.
  - change (splitSemicolonSpace (String semicolonChar (String spaceChar rest))
            = "" :: splitSemicolonSpace rest).
    cbn [splitSemicolonSpace]. by rewrite decide_True.
  - simpl in Hno. destruct (decide (x = semicolonChar)) as [|Hx]; [done|].
    specialize (IH Hno).
    change (splitSemicolonSpace
              (String x (a +:+ String semicolonChar (String spaceChar rest)))
            = String x a :: splitSemicolonSpace rest).
    cbn [splitSemicolonSpace].
    destruct (a +:+ String semicolonChar (String spaceChar rest)) as [|b s''] eqn:E.
    { by destruct a. }
    rewrite decide_False by (intros [? _]; done). by rewrite IH.
Qed.

Lemma splitSemicolonSpace_whole (a : string) :
  hasChar semicolonChar a = false → splitSemicolonSpace a = [a].
Proof.
  induction a as [|x a IH]; intros Hno; [done|].
  simpl in Hno. destruct (decide (x = semicolonChar)) as [|Hx]; [done|].
  specialize (IH Hno). cbn [splitSemicolonSpace]. destruct a as [|b a']; [done|].
  rewrite decide_False by (intros [? _]; done). by rewrite IH.
Qed.

Lemma splitEquals_key (k v : string) :
  hasChar equalsChar k = false →
  splitEquals (k +:+ String equalsChar v) = k :: splitEquals v.
Proof.
  induction k as [|x k IH]; intros Hno.
  - change (splitEquals (String equalsChar v) = "" :: splitEquals v).
    cbn [splitEquals]. by rewrite decide_True.
  - simpl in Hno. destruct (decide (x = equalsChar)) as [|Hx]; [done|].
    change (splitEquals (String x (k +:+ String equalsChar v)) = String x k :: splitEquals v).
    cbn [splitEquals]. rewrite decide_False by done. by rewrite IH.
Qed.

Lemma joinEquals_cons (p q : string) (l : list string) :
  joinEquals (p :: q :: l) = p +:+ "=" +:+ joinEquals (q :: l).
Proof. done. Qed.

Lemma joinEquals_String (a : Ascii.ascii) (p : string) (l : list string) :
  joinEquals (String a p :: l) = String a (joinEquals (p :: l)).
Proof. by destruct l. Qed.

(** Splitting on [=] and joining with [=] gives the string back. *)
Lemma joinEquals_splitEquals (v : string) : joinEquals (splitEquals v) = v.
Proof.
  induction v as [|a v IH]; [done|]. cbn [splitEquals].
  destruct (splitEquals v) as [|piece pieces] eqn:E.
  { exfalso. destruct v as [|b v']; [done|]. cbn [splitEquals] in E.
    destruct (decide (b = equalsChar)); [done|]. by destruct (splitEquals v'). }
  destruct (decide (a = equalsChar)) as [->|Ha].
  - by rewrite joinEquals_cons, IH.
  - by rewrite joinEquals_String, IH.
Qed.

Lemma cookieEntry_written (k v : string) :
  hasChar equalsChar k = false → cookieEntry (k +:+ String equalsChar v) = (k, v).
Proof.
  intros Hk. unfold cookieEntry. rewrite splitEquals_key by done.
  by rewrite joinEquals_splitEquals.
Qed.

(** X18. A cookie header written as [k1=v1; k2=v2; ...], with keys that
    contain neither [=] nor [;] and values that contain no [;], is read
    back by the parsing of [createContext] as the same list of entries;
    values may contain [=]. *)
Theorem cookies_read_back (cookies : list (string * string)) :
  (∀ c, c ∈ cookies →
        hasChar equalsChar (fst c) = false ∧ hasChar semicolonChar (fst c) = false ∧
        hasChar semicolonChar (snd c) = false) →
  cookieEntries (writeCookies cookies) = cookies.
Proof.
  unfold cookieEntries. induction cookies as [|[k v] cookies IH]; intros Hok; [done|].
  destruct (Hok (k, v)) as (Hk1 & Hk2 & Hv); [by left|]. simpl in Hk1, Hk2, Hv.
  assert (Hpiece : hasChar semicolonChar (k +:+ String equalsChar v) = false).
  { rewrite hasChar_app, Hk2. exact Hv. }
  assert (Hne : k +:+ String equalsChar v ≠ ""%string) by (by destruct k).
  specialize (IH (λ c Hc, Hok c (list_elem_of_further _ _ _ Hc))).
  destruct cookies as [|c cookies].
  - change (writeCookies [(k, v)]) with (k +:+ String equalsChar v).
    rewrite splitSemicolonSpace_whole by done.
    rewrite filter_cons, filter_nil, decide_True by done.
    by rewrite fmap_cons, cookieEntry_written.
  - change (writeCookies ((k, v) :: c :: cookies))
      with (k +:+ String equalsChar
              (v +:+ String semicolonChar (String spaceChar (writeCookies (c :: cookies))))).
    change (String equalsChar
              (v +:+ String semicolonChar (String spaceChar (writeCookies (c :: cookies)))))
      with ((String equalsChar v)
              +:+ String semicolonChar (String spaceChar (writeCookies (c :: cookies)))).
    rewrite <- append_assoc. rewrite splitSemicolonSpace_piece by done.
    rewrite filter_cons, decide_True by done.
    by rewrite fmap_cons, cookieEntry_written, IH.
Qed.

Lemma cookies_read_back_witness :
  cookieEntries (writeCookies [("theme", "dark"); ("session", "a.b=c")]%string)
    = [("theme", "dark"); ("session", "a.b=c")]%string.
Proof.
  apply cookies_read_back.
  intros c Hc. apply elem_of_cons in Hc as [->|Hc]; [done|].
  by apply list_elem_of_singleton in Hc as ->.
Defined.

(** ** The gate in front of the procedures *)

(** X19. [createContext] puts a user in the context only if the cookie
    header carries a non-empty [session] cookie, [jwt.verify] accepts it,
    a stored session has that token and has not expired at the instant of
    the check, and the user is the row of the user table under the id of
    the verified payload; the store is then unchanged.  Conversely, when
    all of this holds in a store whose tokens are unique, the user is in the
    context and a protected procedure runs for that user. *)
Theorem createContext_admits (jwtVerify : string → option Z) (users : list User.t)
    (cookieHeader : string) (now later : Z) (db : Db) :
  (∀ u, Context.user (fst (createContext jwtVerify users cookieHeader now later db)) = Some u →
     ∃ token session,
       cookieValue "session" (cookieEntries cookieHeader) = Some token ∧
       token ≠ ""%string ∧ jwtVerify token = Some (User.id u) ∧ u ∈ users ∧
       session ∈ sessions db ∧ Session.token session = token ∧
       now < Session.expiresAt session ∧
       snd (createContext jwtVerify users cookieHeader now later db) = db) ∧
  (∀ session u, uniqueTokens db → session ∈ sessions db → now < Session.expiresAt session →
     cookieValue "session" (cookieEntries cookieHeader) = Some (Session.token session) →
     Session.token session ≠ ""%string →
     jwtVerify (Session.token session) = Some (User.id u) →
     selectGet (λ v, User.id v = User.id u) users = Some u →
     Context.user (fst (createContext jwtVerify users cookieHeader now later db)) = Some u ∧
     snd (createContext jwtVerify users cookieHeader now later db) = db ∧
     ∀ A (next : User.t → A),
       protectedProcedure (fst (createContext jwtVerify users cookieHeader now later db)) next
         = Ok (next u)).
Proof.
  unfold createContext. split.
  - intros u.
    destruct (cookieValue "session" (cookieEntries cookieHeader)) as [token|] eqn:Hcookie;
      [|done].
    simpl. destruct (decide (token = ""%string)) as [|Hne]; [done|].
    destruct (jwtVerify token) as [uid|] eqn:Hjwt; [|done].
    destruct (validateSessionToken token now db) as [[session|] db'] eqn:Hval; [|done].
    simpl. intros Hu. apply selectGet_Some in Hu as [Hin Hid].
    pose proof (validateSessionToken_Some db now token session) as Hs.
    rewrite Hval in Hs. destruct (Hs eq_refl) as (Hsin & Htok & Hlive).
    exists token, session. repeat (split; [done|]). split; [by rewrite Hid|].
    repeat (split; [done|]).
    unfold validateSessionToken in Hval.
    destruct (selectGet (byToken token) (sessions db)); [|done].
    case_bool_decide; [done|]. by injection Hval as _ <-.
  - intros session u Hu Hin Hlive Hcookie Hne Hjwt Huser.
    rewrite Hcookie. simpl. rewrite decide_False by done. rewrite Hjwt.
    rewrite validateSessionToken_live by done. simpl. by rewrite Huser.
Qed.

Lemma createContext_admits_witness :
  Context.user
    (fst (createContext (λ _, Some 7) [User.mk 7 "ada@example.com"] "theme=dark; session=T1"
            Sample.t0 Sample.t0 Sample.sessionsDb))
  = Some (User.mk 7 "ada@example.com").
Proof.
  apply (proj2 (createContext_admits (λ _, Some 7) [User.mk 7 "ada@example.com"]
                  "theme=dark; session=T1" Sample.t0 Sample.t0 Sample.sessionsDb)
           Sample.T1 (User.mk 7 "ada@example.com") sample_uniqueTokens); try done.
  by left.
Defined.

(** X20. Through [createContext], a protected procedure throws
    [UNAUTHORIZED] for a request whose session has expired, the instant
    [expiresAt] included.  When [jwt.verify] accepts the token the expired
    session is deleted on the way; when it refuses it, the check of the
    session is not reached and the store is as before. *)
Theorem expired_session_is_unauthorized (jwtVerify : string → option Z)
    (users : list User.t) (cookieHeader : string) (now later : Z) (db : Db)
    (session : Session.t) :
  uniqueTokens db → session ∈ sessions db → Session.expiresAt session ≤ now →
  cookieValue "session" (cookieEntries cookieHeader) = Some (Session.token session) →
  let r := createContext jwtVerify users cookieHeader now later db in
  (∀ A (next : User.t → A),
     protectedProcedure (fst r) next = Throw (TRPCError UNAUTHORIZED "UNAUTHORIZED")) ∧
  (Session.token session ≠ ""%string → is_Some (jwtVerify (Session.token session)) →
     snd r = deleteSessionsByToken (Session.token session) db ∧ session ∉ sessions (snd r)) ∧
  (jwtVerify (Session.token session) = None → snd r = db).
Proof.
  intros Hu Hin Hexp Hcookie r. subst r. unfold createContext. rewrite Hcookie. simpl.
  destruct (decide (Session.token session = ""%string)) as [Hempty|Hne].
  { split; [done|]. split; [done|]. done. }
  destruct (jwtVerify (Session.token session)) as [uid|] eqn:Hjwt.
  - rewrite validateSessionToken_expired by done. simpl.
    split; [done|]. split; [|done]. intros _ _. split; [done|].
    intros Hs. by apply elem_of_deleteSessionsByToken in Hs as [_ ?].
  - split; [done|]. split; [|done]. by intros _ [? ?].
Qed.

Lemma expired_session_is_unauthorized_witness :
  protectedProcedure
    (fst (createContext (λ _, Some 8) [User.mk 8 "bob@example.com"] "session=T3"
            (Sample.t0 + 1000) (Sample.t0 + 1000) Sample.sessionsDb))
    User.id
  = Throw (TRPCError UNAUTHORIZED "UNAUTHORIZED").
Proof.
  destruct (expired_session_is_unauthorized (λ _, Some 8) [User.mk 8 "bob@example.com"]
              "session=T3" (Sample.t0 + 1000) (Sample.t0 + 1000) Sample.sessionsDb
              Sample.T3 sample_uniqueTokens) as [Hun _].
  - right. right. left.
  - reflexivity.
  - reflexivity.
  - apply Hun.
Defined.

(** ** The Luhn check *)

Lemma list_ascii_of_string_app (s1 s2 : string) :
  String.list_ascii_of_string (s1 +:+ s2)
  = String.list_ascii_of_string s1 ++ String.list_ascii_of_string s2.
Proof.
  induction s1 as [|a s1 IH]; [done|].
  change (a :: String.list_ascii_of_string (s1 +:+ s2)
          = a :: (String.list_ascii_of_string s1 ++ String.list_ascii_of_string s2)).
  by rewrite IH.
Qed.

Lemma digitsOnly_app (s1 s2 : string) : digitsOnly (s1 +:+ s2) = digitsOnly s1 ++ digitsOnly s2.
Proof. unfold digitsOnly. by rewrite list_ascii_of_string_app, filter_app. Qed.

Lemma digitValue_range (c : Ascii.ascii) : isDigit c = true → 0 ≤ digitValue c ≤ 9.
Proof.
  unfold isDigit, digitValue. intros [H1 H2]%andb_true_iff.
  apply Nat.leb_le in H1, H2. lia.
Qed.

Lemma digitValue_inj (c c' : Ascii.ascii) : digitValue c = digitValue c' → c = c'.
Proof.
  unfold digitValue. intros H.
  rewrite <- (Ascii.ascii_nat_embedding c), <- (Ascii.ascii_nat_embedding c').
  f_equal. lia.
Qed.

(** The part of the sum that the digits already seen contribute does not
    bear on what the next ones add. *)
Lemma luhn_rounds_shift (l : list Ascii.ascii) (sum : Z) (isEven : bool) :
  foldl luhnStep (sum, isEven) l
  = (sum + fst (foldl luhnStep (0, isEven) l), snd (foldl luhnStep (0, isEven) l)).
Proof.
  revert sum isEven. induction l as [|c l IH]; intros sum isEven; simpl.
  - f_equal. lia.
  - unfold luhnStep at 2 4 6. simpl. rewrite IH.
    rewrite (IH (0 + _)). simpl. f_equal. lia.
Qed.

(** X21. [luhnCheck] looks at the decimal digits only, and a string without
    any digit passes.  It detects every substitution of one digit: if a
    string passes, the string obtained by replacing one of its digits by a
    different digit does not. *)
Theorem luhnCheck_detects_substitution (s1 s2 : string) (d d' : Ascii.ascii) :
  (digitsOnly s1 = [] → luhnCheck s1 = true) ∧
  (digitsOnly s1 = digitsOnly s2 → luhnCheck s1 = luhnCheck s2) ∧
  (isDigit d = true → isDigit d' = true → d ≠ d' →
   luhnCheck (s1 +:+ String d s2) = true →
   luhnCheck (s1 +:+ String d' s2) = false).
Proof.
  split; [|split].
  - intros Hnone. unfold luhnCheck. by rewrite Hnone.
  - intros Hsame. unfold luhnCheck. by rewrite Hsame.
  - intros Hd Hd' Hne. unfold luhnCheck.
    assert (Hdigits : ∀ c, isDigit c = true →
              reverse (digitsOnly (s1 +:+ String c s2))
              = reverse (digitsOnly s2) ++ c :: reverse (digitsOnly s1)).
    { intros c Hc. rewrite digitsOnly_app.
      change (String c s2) with (String c "" +:+ s2). rewrite digitsOnly_app.
      unfold digitsOnly at 2. simpl. rewrite filter_cons, decide_True by done.
      rewrite filter_nil. rewrite !reverse_app. simpl. by rewrite <- app_assoc. }
    rewrite !Hdigits by done. rewrite !foldl_app. cbn [foldl].
    destruct (foldl luhnStep (0, false) (reverse (digitsOnly s2))) as [sum2 even2].
    assert (Hshift : ∀ c,
              fst (foldl luhnStep (luhnStep (sum2, even2) c) (reverse (digitsOnly s1)))
              = fst (luhnStep (sum2, even2) c)
                + fst (foldl luhnStep (0, negb even2) (reverse (digitsOnly s1)))).
    { intros c. rewrite (surjective_pairing (luhnStep (sum2, even2) c)).
      by rewrite luhn_rounds_shift. }
    rewrite !Hshift.
    set (rest := fst (foldl luhnStep (0, negb even2) (reverse (digitsOnly s1)))).
    intros Hok%bool_decide_eq_true. apply bool_decide_eq_false. intros Hok'.
    pose proof (digitValue_range d Hd) as Hr. pose proof (digitValue_range d' Hd') as Hr'.
    assert (digitValue d ≠ digitValue d') as Hv by (intros ?; by apply Hne, digitValue_inj).
    apply Z.mod_divide in Hok as [k Hk]; [|lia]. apply Z.mod_divide in Hok' as [k' Hk']; [|lia].
    unfold luhnStep in Hk, Hk'. simpl in Hk, Hk'.
    destruct even2; simpl in Hk, Hk'; repeat case_bool_decide; lia.
Qed.

Lemma luhnCheck_detects_substitution_witness :
  luhnCheck "4111 1111 1111 1111" = true ∧ luhnCheck "4111 1171 1111 1111" = false.
Proof.
  split; [reflexivity|].
  apply (proj2 (proj2 (luhnCheck_detects_substitution "4111 11" "1 1111 1111"
                         (Ascii.ascii_of_nat 49) (Ascii.ascii_of_nat 55))));
    [reflexivity|reflexivity|discriminate|reflexivity].
Defined.

(** ** Routing numbers *)

Lemma isDigit_not_space (c : Ascii.ascii) :
  isDigit c = true → isWhiteSpace c = false ∧ c ≠ hyphenChar.
Proof.
  unfold isDigit, isWhiteSpace. intros [H1 H2]%andb_true_iff.
  apply Nat.leb_le in H1, H2. split.
  - apply orb_false_iff. split; [apply orb_false_iff; split|].
    + apply andb_false_iff. right. apply Nat.leb_gt. lia.
    + apply Nat.eqb_neq. lia.
    + apply Nat.eqb_neq. lia.
  - intros ->. unfold hyphenChar in H1. rewrite Ascii.nat_ascii_embedding in H1; lia.
Qed.

Lemma withoutSpacesAndHyphens_digits (s : string) :
  allDigits s = true → withoutSpacesAndHyphens s = String.list_ascii_of_string s.
Proof.
  unfold allDigits, withoutSpacesAndHyphens. intros Hall. apply filter_keeps_all.
  intros c Hc. apply isDigit_not_space.
  rewrite forallb_forall in Hall. apply Hall. by apply list_elem_of_In.
Qed.

Lemma trimChars_digit (c : Ascii.ascii) (l1 l2 : list Ascii.ascii) :
  forallb isDigit (l1 ++ c :: l2) = true → trimChars (l1 ++ c :: l2) ≠ [].
Proof.
  intros Hall.
  assert (Hdrop : ∀ l : list Ascii.ascii,
            l ≠ [] → forallb isDigit l = true → dropWhiteSpace l = l).
  { intros [|x l] Hne Hl; [done|]. simpl in *. apply andb_true_iff in Hl as [Hx _].
    by destruct (isDigit_not_space x Hx) as [-> _]. }
  assert (Hne : l1 ++ c :: l2 ≠ []) by (by intros [_ ?]%app_eq_nil).
  unfold trimChars. rewrite (Hdrop (l1 ++ c :: l2)) by done.
  rewrite Hdrop.
  - by rewrite reverse_involutive.
  - intros Hnil. apply (f_equal reverse) in Hnil. by rewrite reverse_involutive in Hnil.
  - rewrite forallb_forall in *. intros x Hx. apply Hall.
    apply list_elem_of_In. apply list_elem_of_In in Hx. by rewrite elem_of_reverse in Hx.
Qed.

Lemma weightedSum_substitution (l1 l2 : list Ascii.ascii) (c c' : Ascii.ascii)
    (weights : list Z) :
  weightedSum (l1 ++ c :: l2) weights - weightedSum (l1 ++ c' :: l2) weights
  = (digitValue c - digitValue c') * default 0 (weights !! length l1).
Proof.
  unfold weightedSum.
  assert (Hshift : ∀ (l : list (Ascii.ascii * Z)) (sum : Z),
            foldl (λ sum cw, sum + digitValue (fst cw) * snd cw) sum l
            = sum + foldl (λ sum cw, sum + digitValue (fst cw) * snd cw) 0 l).
  { induction l as [|x l IH]; intros sum; simpl; [lia|].
    rewrite IH, (IH (0 + _)). lia. }
  revert weights. induction l1 as [|x l1 IH]; intros [|w weights]; simpl; try lia.
  - rewrite Hshift, (Hshift _ (0 + digitValue c' * w)). lia.
  - rewrite Hshift, (Hshift _ (0 + digitValue x * w)). specialize (IH weights). lia.
Qed.

Lemma length_list_ascii_of_string (s : string) :
  length (String.list_ascii_of_string s) = String.length s.
Proof. induction s as [|a s IH]; [done|]. simpl. by rewrite IH. Qed.

Lemma routingWeights_units (i : nat) (w : Z) :
  routingWeights !! i = Some w → w = 3 ∨ w = 7 ∨ w = 1.
Proof.
  unfold routingWeights. do 9 (destruct i as [|i]; [intros [= <-]; lia|]). done.
Qed.

(** X22. [validateRoutingNumber] asks for a routing number when its input is
    empty or blank.  It detects every substitution of one digit: if a string
    of nine digits is valid, the string obtained by replacing one digit by
    a different digit is refused, for its checksum. *)
Theorem validateRoutingNumber_detects_substitution (s1 s2 : string) (d d' : Ascii.ascii) :
  (trimChars (String.list_ascii_of_string s1) = [] →
   validateRoutingNumber s1 = Validation.mk false (Some "Routing number is required"%string)) ∧
  (allDigits s1 = true → allDigits s2 = true → isDigit d = true → isDigit d' = true →
   (String.length s1 + 1 + String.length s2 = 9)%nat → d ≠ d' →
   validateRoutingNumber (s1 +:+ String d s2) = Validation.mk true None →
   validateRoutingNumber (s1 +:+ String d' s2)
     = Validation.mk false (Some "Invalid routing number (failed validation check)"%string)).
Proof.
  split.
  - intros Hblank. unfold validateRoutingNumber. rewrite bool_decide_eq_true_2; [done|by right].
  - intros Hs1 Hs2 Hd Hd' Hlen Hne.
    assert (Hshape : ∀ c, isDigit c = true →
              validateRoutingNumber (s1 +:+ String c s2) =
              if bool_decide
                   (weightedSum (String.list_ascii_of_string s1 ++
                                 c :: String.list_ascii_of_string s2) routingWeights
                    `mod` 10 ≠ 0)
              then Validation.mk false
                     (Some "Invalid routing number (failed validation check)"%string)
              else Validation.mk true None).
    { intros c Hc.
      assert (Hall : forallb isDigit (String.list_ascii_of_string s1 ++
                                      c :: String.list_ascii_of_string s2) = true).
      { unfold allDigits in *. rewrite forallb_app. simpl. by rewrite Hs1, Hc, Hs2. }
      unfold validateRoutingNumber.
      rewrite withoutSpacesAndHyphens_digits
        by (unfold allDigits; by rewrite list_ascii_of_string_app).
      rewrite list_ascii_of_string_app.
      change (String.list_ascii_of_string (String c s2))
        with (c :: String.list_ascii_of_string s2).
      rewrite bool_decide_eq_false_2.
      2:{ intros [Hempty|Hblank]; [by destruct s1|]. by apply trimChars_digit in Hblank. }
      rewrite bool_decide_eq_false_2.
      2:{ intros Hbad. apply Hbad. rewrite length_app. simpl.
          rewrite !length_list_ascii_of_string. lia. }
      by rewrite Hall. }
    rewrite !Hshape by done.
    case_bool_decide as Hok; [done|]. intros _.
    rewrite bool_decide_eq_true_2; [done|]. intros Hok'.
    pose proof (weightedSum_substitution (String.list_ascii_of_string s1)
                  (String.list_ascii_of_string s2) d d' routingWeights) as Hdiff.
    rewrite length_list_ascii_of_string in Hdiff.
    destruct (routingWeights !! String.length s1) as [w|] eqn:Hw.
    2:{ apply lookup_ge_None in Hw. unfold routingWeights in Hw. simpl in Hw. lia. }
    simpl in Hdiff. apply routingWeights_units in Hw.
    pose proof (digitValue_range d Hd) as Hr. pose proof (digitValue_range d' Hd') as Hr'.
    assert (digitValue d ≠ digitValue d') as Hv by (intros ?; by apply Hne, digitValue_inj).
    apply Z.mod_divide in Hok as [k Hk]; [|lia]. apply Z.mod_divide in Hok' as [k' Hk']; [|lia].
    destruct Hw as [->|[->| ->]]; lia.
Qed.

Lemma validateRoutingNumber_detects_substitution_witness :
  validateRoutingNumber "021000021" = Validation.mk true None ∧
  validateRoutingNumber "021005021"
    = Validation.mk false (Some "Invalid routing number (failed validation check)"%string).
Proof.
  split; [reflexivity|].
  apply (proj2 (validateRoutingNumber_detects_substitution "02100" "021"
                  (Ascii.ascii_of_nat 48) (Ascii.ascii_of_nat 53)));
    [reflexivity|reflexivity|reflexivity|reflexivity|reflexivity|discriminate|reflexivity].
Defined.

(** ** Escaping *)

Lemma hasMarkupChar_app (s1 s2 : string) :
  hasMarkupChar (s1 +:+ s2) = hasMarkupChar s1 || hasMarkupChar s2.
Proof.
  induction s1 as [|a s1 IH]; [done|].
  change (hasMarkupChar (String a (s1 +:+ s2))
          = hasMarkupChar (String a s1) || hasMarkupChar s2).
  simpl. by rewrite IH, orb_assoc.
Qed.

Lemma escapeChar_clean (c : Ascii.ascii) : hasMarkupChar (escapeChar c) = false.
Proof.
  unfold escapeChar. repeat (destruct (decide _); [reflexivity|]).
  simpl. rewrite orb_false_r. apply bool_decide_eq_false.
  by intros [?|[?|[?|?]]].
Qed.

Lemma escapeString_app (s1 s2 : string) :
  escapeString (s1 +:+ s2) = escapeString s1 +:+ escapeString s2.
Proof.
  induction s1 as [|a s1 IH]; [done|].
  change (escapeChar a +:+ escapeString (s1 +:+ s2)
          = (escapeChar a +:+ escapeString s1) +:+ escapeString s2).
  by rewrite IH, append_assoc.
Qed.

Lemma escapeString_clean (s : string) : hasMarkupChar (escapeString s) = false.
Proof.
  induction s as [|a s IH]; [done|]. simpl.
  by rewrite hasMarkupChar_app, escapeChar_clean, IH.
Qed.

(** Two characters, two different replacements, none the beginning of
    another. *)
Lemma escapeChar_prefix_free (c1 c2 : Ascii.ascii) (r1 r2 : string) :
  escapeChar c1 +:+ r1 = escapeChar c2 +:+ r2 → c1 = c2 ∧ r1 = r2.
Proof.
  unfold escapeChar.
  destruct (decide (c1 = ampChar)) as [->|?], (decide (c2 = ampChar)) as [->|?];
  repeat (match goal with
          | |- context [decide (?c = ?k)] => destruct (decide (c = k)) as [->|?]
          end);
  intros Heq; try discriminate Heq; by simplify_eq.
Qed.

(** X23. The output of [escapeHtml] contains none of the characters [<],
    [>], the double quote and the apostrophe; [escapeHtml] of nothing
    ([null], [undefined]) is the empty string; two different texts never
    have the same escaped form; and escaping goes piece by piece through a
    concatenation. *)
Theorem escapeHtml_is_safe (text1 text2 : string) :
  hasMarkupChar (escapeHtml (Some text1)) = false ∧
  escapeHtml None = ""%string ∧
  (escapeHtml (Some text1) = escapeHtml (Some text2) → text1 = text2) ∧
  escapeHtml (Some (text1 +:+ text2)) = escapeHtml (Some text1) +:+ escapeHtml (Some text2).
Proof.
  split; [apply escapeString_clean|]. split; [done|]. split; [|apply escapeString_app].
  simpl. revert text2. induction text1 as [|c1 t1 IH]; intros [|c2 t2] Heq; simpl in Heq.
  - done.
  - exfalso. unfold escapeChar in Heq.
    repeat (destruct (decide _) in Heq; [discriminate Heq|]). discriminate Heq.
  - exfalso. unfold escapeChar in Heq.
    repeat (destruct (decide _) in Heq; [discriminate Heq|]). discriminate Heq.
  - apply escapeChar_prefix_free in Heq as [-> Heq]. f_equal. by apply IH.
Qed.

Lemma stripTagsFrom_no_lt (s : string) :
  hasChar ltChar s = false → stripTagsFrom false s = s.
Proof.
  induction s as [|c s IH]; [done|]. cbn [hasChar stripTagsFrom].
  destruct (decide (c = ltChar)); [done|]. intros H. by rewrite IH.
Qed.

Lemma stripTagsFrom_no_gt (s : string) :
  hasChar gtChar s = false → stripTagsFrom false s = s.
Proof.
  induction s as [|c s IH]; [done|]. cbn [hasChar stripTagsFrom].
  destruct (decide (c = gtChar)); [done|]. intros H. rewrite H, IH by done.
  by destruct (decide (c = ltChar)).
Qed.

Lemma stripTagsFrom_inside (tag rest : string) :
  hasChar gtChar tag = false →
  stripTagsFrom true (tag +:+ String gtChar rest) = stripTagsFrom false rest.
Proof.
  induction tag as [|c tag IH].
  - intros _. change (stripTagsFrom true (String gtChar rest) = stripTagsFrom false rest).
    cbn [stripTagsFrom]. by destruct (decide (gtChar = gtChar)).
  - change (hasChar gtChar (String c tag) = false →
            stripTagsFrom true (String c (tag +:+ String gtChar rest))
            = stripTagsFrom false rest).
    cbn [hasChar stripTagsFrom]. destruct (decide (c = gtChar)); [done|]. exact IH.
Qed.

Lemma stripTagsFrom_before (a rest : string) :
  hasChar ltChar a = false →
  stripTagsFrom false (a +:+ rest) = a +:+ stripTagsFrom false rest.
Proof.
  induction a as [|c a IH]; [done|].
  change (hasChar ltChar (String c a) = false →
          stripTagsFrom false (String c (a +:+ rest))
          = String c (a +:+ stripTagsFrom false rest)).
  cbn [hasChar stripTagsFrom]. destruct (decide (c = ltChar)); [done|].
  intros H. by rewrite IH.
Qed.

(** X24. The output of [sanitizeInput] contains none of [<], [>], the
    double quote and the apostrophe.  An input without [<] is only escaped;
    so is an input without [>], whatever [<] it has (an unclosed tag stays
    as text).  A complete tag, from a [<] to the first [>] after it, is
    removed with everything in it, and the text before it is escaped. *)
Theorem sanitizeInput_strips_and_escapes (input a tag rest : string) :
  hasMarkupChar (sanitizeInput (Some input)) = false ∧
  (hasChar ltChar input = false ∨ hasChar gtChar input = false →
   sanitizeInput (Some input) = escapeHtml (Some input)) ∧
  (hasChar ltChar a = false → hasChar gtChar tag = false →
   sanitizeInput (Some (a +:+ String ltChar (tag +:+ String gtChar rest)))
   = escapeHtml (Some a) +:+ sanitizeInput (Some rest)).
Proof.
  split; [apply escapeString_clean|]. split.
  - intros [H|H]; cbn [sanitizeInput escapeHtml].
    + by rewrite stripTagsFrom_no_lt.
    + by rewrite stripTagsFrom_no_gt.
  - intros Ha Htag. cbn [sanitizeInput escapeHtml].
    rewrite stripTagsFrom_before by done. rewrite escapeString_app. f_equal.
    cbn [stripTagsFrom]. destruct (decide (ltChar = ltChar)); [|done].
    rewrite hasChar_app. cbn [hasChar]. destruct (decide (gtChar = gtChar)); [|done].
    rewrite orb_true_r. by rewrite stripTagsFrom_inside.
Qed.

Lemma sanitizeInput_strips_and_escapes_witness :
  sanitizeInput (Some "<b>"%string) = ""%string ∧
  sanitizeInput (Some "1 < 2"%string) = "1 &lt; 2"%string ∧
  sanitizeInput (Some "Hi <img src=x onerror=alert(1)>there"%string) = "Hi there"%string.
Proof.
  pose proof (sanitizeInput_strips_and_escapes "1 < 2" "Hi "
                "img src=x onerror=alert(1)" "there") as (_ & H2 & H3).
  split; [reflexivity|]. split.
  - rewrite H2; [reflexivity|]. right. reflexivity.
  - etrans; [exact (H3 eq_refl eq_refl)|reflexivity].
Defined.

Lemma escapeHtml_is_safe_witness :
  escapeHtml (Some "<a href='x'>"%string) = "&lt;a href=&#039;x&#039;&gt;"%string ∧
  hasMarkupChar (escapeHtml (Some "<a href='x'>"%string)) = false ∧
  "<a href='x'>"%string = "<a href='x'>"%string.
Proof.
  pose proof (escapeHtml_is_safe "<a href='x'>" "<a href='x'>") as (H1 & _ & H3 & _).
  split; [reflexivity|]. split; [exact H1|]. apply H3. reflexivity.
Defined.

Lemma countChar_app (c : Ascii.ascii) (s1 s2 : string) :
  countChar c (s1 +:+ s2) = (countChar c s1 + countChar c s2)%nat.
Proof.
  induction s1 as [|a s1 IH]; [done|].
  change (countChar c (String a (s1 +:+ s2))
          = (countChar c (String a s1) + countChar c s2)%nat).
  cbn [countChar]. rewrite IH. lia.
Qed.

Lemma countChar_escapeChar (a : Ascii.ascii) :
  countChar ltChar (escapeChar a) = 0%nat ∧
  countChar newlineChar (escapeChar a) = if decide (a = newlineChar) then 1%nat else 0%nat.
Proof.
  unfold escapeChar.
  repeat (destruct (decide _) as [->|?]; [by split|]).
  cbn [countChar]. destruct (decide (a = ltChar)); [done|].
  split; [done|]. destruct (decide (a = newlineChar)); done.
Qed.

Lemma countChar_escapeString (s : string) :
  countChar ltChar (escapeString s) = 0%nat ∧
  countChar newlineChar (escapeString s) = countChar newlineChar s.
Proof.
  induction s as [|a s [IH1 IH2]]; [done|]. cbn [escapeString countChar].
  rewrite !countChar_app, IH1, IH2.
  by destruct (countChar_escapeChar a) as [-> ->].
Qed.

Lemma countChar_breakLines (s : string) :
  countChar newlineChar (breakLines s) = 0%nat ∧
  countChar ltChar (breakLines s) = (countChar ltChar s + countChar newlineChar s)%nat.
Proof.
  induction s as [|a s [IH1 IH2]]; [done|]. cbn [breakLines countChar].
  destruct (decide (a = newlineChar)) as [->|Hn].
  - rewrite !countChar_app, IH1, IH2. split; [done|].
    destruct (decide (newlineChar = ltChar)); [done|].
    change (countChar ltChar "<br />") with 1%nat. lia.
  - cbn [countChar]. rewrite IH1, IH2.
    destruct (decide (a = newlineChar)); [done|]. split; [done|lia].
Qed.

Lemma breakLines_app (s1 s2 : string) :
  breakLines (s1 +:+ s2) = breakLines s1 +:+ breakLines s2.
Proof.
  induction s1 as [|a s1 IH]; [done|].
  change (breakLines (String a (s1 +:+ s2)) = breakLines (String a s1) +:+ breakLines s2).
  cbn [breakLines]. destruct (decide (a = newlineChar)).
  - by rewrite IH, append_assoc.
  - by rewrite IH.
Qed.

(** X25. In the output of [safenizeText] no line break is left, and the
    only [<] are those of the [<br />] written for the line breaks of the
    text: there are as many [<] in the output as line breaks in the input,
    whatever markup the input has.  A line break between two texts becomes
    one [<br />] between their outputs, and nothing ([null], [undefined])
    gives the empty string. *)
Theorem safenizeText_only_breaks (text1 text2 : string) :
  countChar newlineChar (safenizeText (Some text1)) = 0%nat ∧
  countChar ltChar (safenizeText (Some text1)) = countChar newlineChar text1 ∧
  safenizeText (Some (text1 +:+ String newlineChar text2))
  = safenizeText (Some text1) +:+ "<br />" +:+ safenizeText (Some text2) ∧
  safenizeText None = ""%string.
Proof.
  unfold safenizeText. cbn [escapeHtml].
  destruct (countChar_breakLines (escapeString text1)) as [H1 H2].
  destruct (countChar_escapeString text1) as [H3 H4].
  split; [exact H1|]. split; [by rewrite H2, H3, H4|]. split; [|done].
  rewrite escapeString_app, breakLines_app. f_equal.
Qed.

(** ** Masking *)

Lemma length_string_of_list_ascii (l : list Ascii.ascii) :
  String.length (String.string_of_list_ascii l) = length l.
Proof. induction l as [|a l IH]; [done|]. simpl. by rewrite IH. Qed.

Lemma allDigits_app (s1 s2 : string) :
  allDigits (s1 +:+ s2) = allDigits s1 && allDigits s2.
Proof. unfold allDigits. by rewrite list_ascii_of_string_app, forallb_app. Qed.

(** X26. [maskSSN] always returns eleven characters that begin with
    [XXX-XX-].  For nine digits the last four characters are the last four
    digits of the number, so two numbers with the same last four digits have
    the same mask and the first five digits are not shown; for anything
    else (the empty string, another length, a character that is no digit)
    the mask is [XXX-XX-XXXX]. *)
Theorem maskSSN_shows_last_four (ssn first first' last : string) :
  (∃ tail, maskSSN ssn = "XXX-XX-" +:+ tail ∧ String.length tail = 4%nat) ∧
  (nineDigits ssn = false → maskSSN ssn = "XXX-XX-XXXX"%string) ∧
  (String.length first = 5%nat → String.length first' = 5%nat →
   String.length last = 4%nat →
   allDigits first = true → allDigits first' = true → allDigits last = true →
   maskSSN (first +:+ last) = "XXX-XX-" +:+ last ∧
   maskSSN (first' +:+ last) = maskSSN (first +:+ last)).
Proof.
  assert (Hmask : ∀ f, String.length f = 5%nat → String.length last = 4%nat →
                       allDigits f = true → allDigits last = true →
                       maskSSN (f +:+ last) = "XXX-XX-" +:+ last).
  { intros f Hf Hl Hdf Hdl. unfold maskSSN.
    assert (Hlen : String.length (f +:+ last) = 9%nat).
    { rewrite <- length_list_ascii_of_string, list_ascii_of_string_app, length_app,
        !length_list_ascii_of_string. lia. }
    assert (Hnine : nineDigits (f +:+ last) = true).
    { unfold nineDigits. by rewrite Hlen, allDigits_app, Hdf, Hdl. }
    rewrite Hnine. rewrite bool_decide_eq_true_2.
    2:{ intros Heq. by rewrite Heq in Hlen. }
    cbn [negb orb]. f_equal. unfold lastFour.
    rewrite Hlen, list_ascii_of_string_app.
    rewrite drop_app_length' by (rewrite length_list_ascii_of_string; lia).
    apply String.string_of_list_ascii_of_string. }
  split; [|split].
  - unfold maskSSN. destruct (negb _ || negb (nineDigits ssn)) eqn:Hc.
    + by exists "XXXX"%string.
    + exists (lastFour ssn). split; [done|].
      apply orb_false_elim in Hc as [_ Hc]. apply negb_false_iff in Hc.
      unfold nineDigits in Hc. apply andb_true_iff in Hc as [Hc _].
      apply Nat.eqb_eq in Hc. unfold lastFour.
      rewrite length_string_of_list_ascii, length_drop, length_list_ascii_of_string.
      lia.
  - intros H. unfold maskSSN. by rewrite H, orb_true_r.
  - intros Hf Hf' Hl Hdf Hdf' Hdl. by rewrite !Hmask.
Qed.

Lemma maskSSN_shows_last_four_witness :
  maskSSN "123456789" = "XXX-XX-6789"%string ∧
  maskSSN "987656789" = maskSSN "123456789" ∧
  maskSSN "12345678" = "XXX-XX-XXXX"%string.
Proof.
  destruct (maskSSN_shows_last_four "12345678" "12345" "98765" "6789") as (_ & H2 & H3).
  destruct (H3 eq_refl eq_refl eq_refl eq_refl eq_refl eq_refl) as [H4 H5].
  split; [exact H4|]. split; [exact H5|]. exact (H2 eq_refl).
Defined.

(** ** Passwords *)

Lemma validatePassword_cases (password : string) :
  (∃ message, validatePassword password = passwordRefused message) ∨
  ((8 ≤ String.length password ≤ 128)%nat ∧
   (3 ≤ length (filter (λ b, b = true)
                  [testAny isUppercase password; testAny isLowercase password;
                   testAny isDigit password; testAny isSpecial password]))%nat ∧
   validatePassword password
   = PasswordResult.mk
       (PasswordStrength.isValid (calculatePasswordStrength password))
       (Some (PasswordStrength.strength (calculatePasswordStrength password))) None
       (Some (PasswordStrength.feedback (calculatePasswordStrength password)))).
Proof.
  unfold validatePassword.
  case_bool_decide; [left; by eexists|].
  destruct (Nat.ltb_spec (String.length password) 8); [left; by eexists|].
  destruct (Nat.ltb_spec 128 (String.length password)); [left; by eexists|].
  case_bool_decide; [left; by eexists|].
  cbv zeta.
  destruct (Nat.ltb_spec (length (filter (λ b, b = true)
                  [testAny isUppercase password; testAny isLowercase password;
                   testAny isDigit password; testAny isSpecial password])) 3);
    [left; by eexists|].
  destruct (existsb _ sequencePatterns); [left; by eexists|].
  destruct (hasTripledChar _); [left; by eexists|].
  right. split; [lia|]. split; [lia|done].
Qed.

(** X27. In [calculatePasswordStrength] every feedback message stands for
    ten points not given: the score and ten times the number of messages
    add up to between 50 and 80, and to 80 exactly for sixteen characters
    or more.  A password of eight characters or more with no feedback is
    valid and good or strong; one of fewer than eight characters is never
    better than fair; and a valid password is never weak. *)
Theorem calculatePasswordStrength_points (password : string) :
  50 ≤ PasswordStrength.score (calculatePasswordStrength password)
       + 10 * Z.of_nat (length (PasswordStrength.feedback (calculatePasswordStrength password)))
     ≤ 80 ∧
  (PasswordStrength.score (calculatePasswordStrength password)
   + 10 * Z.of_nat (length (PasswordStrength.feedback (calculatePasswordStrength password)))
   = 80 ↔ (16 ≤ String.length password)%nat) ∧
  (PasswordStrength.feedback (calculatePasswordStrength password) = [] →
   (8 ≤ String.length password)%nat →
   PasswordStrength.isValid (calculatePasswordStrength password) = true ∧
   (PasswordStrength.strength (calculatePasswordStrength password) = good ∨
    PasswordStrength.strength (calculatePasswordStrength password) = strong)) ∧
  ((String.length password < 8)%nat →
   PasswordStrength.strength (calculatePasswordStrength password) = weak ∨
   PasswordStrength.strength (calculatePasswordStrength password) = fair) ∧
  (PasswordStrength.isValid (calculatePasswordStrength password) = true →
   PasswordStrength.strength (calculatePasswordStrength password) ≠ weak).
Proof.
  remember (calculatePasswordStrength password) as r eqn:Hr.
  unfold calculatePasswordStrength in Hr.
  destruct (testAny isLowercase password), (testAny isUppercase password),
    (testAny isDigit password), (testAny isSpecial password),
    (3 * Z.of_nat (String.length password) <=? 4 * Z.of_nat (uniqueChars password));
  destruct (Z.leb_spec 8 (Z.of_nat (String.length password))),
    (Z.leb_spec 12 (Z.of_nat (String.length password))),
    (Z.leb_spec 16 (Z.of_nat (String.length password)));
  try lia; cbn in Hr; subst r; cbn;
  (split; [lia|]); (split; [split; intros; (lia || done)|]);
  (split; [intros; first [lia | done | (split; [done|]; (by left) || (by right))]|]);
  (split; [intros; first [lia | by left | by right]|]); intros; done.
Qed.

Lemma calculatePasswordStrength_points_witness :
  PasswordStrength.isValid (calculatePasswordStrength "Tr0ub4dor&3xQz!m") = true ∧
  (PasswordStrength.strength (calculatePasswordStrength "Tr0ub4dor&3xQz!m") = good ∨
   PasswordStrength.strength (calculatePasswordStrength "Tr0ub4dor&3xQz!m") = strong).
Proof.
  apply (calculatePasswordStrength_points "Tr0ub4dor&3xQz!m"); [reflexivity|].
  vm_compute. lia.
Defined.

(** X28. When [validatePassword] gives no error message, the password has
    between 8 and 128 characters and its strength is reported and is not
    weak.  It can still be invalid: then its score is exactly 40, it has
    fewer than twelve characters, the feedback is one missing kind of
    character followed by the request for more diverse characters, and
    [validatePasswordForForm] answers with the general message. *)
Theorem validatePassword_without_error (password : string) :
  PasswordResult.error (validatePassword password) = None →
  (8 ≤ String.length password ≤ 128)%nat ∧
  PasswordResult.strength (validatePassword password)
  = Some (PasswordStrength.strength (calculatePasswordStrength password)) ∧
  PasswordStrength.strength (calculatePasswordStrength password) ≠ weak ∧
  (PasswordResult.isValid (validatePassword password) = false →
   PasswordStrength.score (calculatePasswordStrength password) = 40 ∧
   (String.length password < 12)%nat ∧
   (∃ missing, PasswordResult.feedback (validatePassword password)
               = Some [missing; "Use more diverse characters"%string]) ∧
   validatePasswordForForm password = Some "Password does not meet requirements"%string).
Proof.
  intros Herr. unfold validatePasswordForForm.
  destruct (validatePassword_cases password) as [[message Hr]|(Hlen & Htypes & Hr)].
  { rewrite Hr in Herr. discriminate Herr. }
  rewrite Hr. cbn [PasswordResult.strength PasswordResult.isValid PasswordResult.feedback
                   PasswordResult.error].
  split; [exact Hlen|]. split; [done|]. clear Hr Herr. revert Htypes.
  remember (calculatePasswordStrength password) as r eqn:Hr.
  unfold calculatePasswordStrength in Hr.
  destruct (testAny isLowercase password), (testAny isUppercase password),
    (testAny isDigit password), (testAny isSpecial password);
  intros Htypes; vm_compute in Htypes; try lia;
  destruct (3 * Z.of_nat (String.length password) <=? 4 * Z.of_nat (uniqueChars password));
  destruct (Z.leb_spec 8 (Z.of_nat (String.length password))),
    (Z.leb_spec 12 (Z.of_nat (String.length password))),
    (Z.leb_spec 16 (Z.of_nat (String.length password)));
  try lia; cbn in Hr; subst r; cbn; (split; [done|]); intros Hv; try discriminate Hv;
  (split; [done|]); (split; [lia|]); (split; [by eexists|done]).
Qed.

Lemma validatePassword_without_error_witness :
  PasswordResult.error (validatePassword "Ab1Ab1Ab1") = None ∧
  PasswordResult.isValid (validatePassword "Ab1Ab1Ab1") = false ∧
  PasswordStrength.score (calculatePasswordStrength "Ab1Ab1Ab1") = 40 ∧
  validatePasswordForForm "Ab1Ab1Ab1" = Some "Password does not meet requirements"%string.
Proof.
  destruct (validatePassword_without_error "Ab1Ab1Ab1" eq_refl) as (_ & _ & _ & H).
  destruct (H eq_refl) as (H1 & _ & _ & H2).
  split; [reflexivity|]. split; [reflexivity|]. split; [exact H1|exact H2].
Defined.
